(** * staticparams: the containers of [static_types.h]

    A shallow embedding of the four class templates of [static_types.h]
    ([tlist], [thlist], [tmap], [tstrlist]), of the instances that
    [test.cc] declares and of its consumers [calc2] and [calc3], followed
    by the properties of their lookup and visitation operations.

    How the C++ is read:
    - a parameter pack is a [list]; [sizeof...(ARGS)] is its length as a
      [size_t];
    - a function template is a function from its template arguments to an
      [option]: [None] when no specialisation exists for these arguments (a
      [requires] clause is false, a pack has no first element to bind, an
      expression of the body is ill-formed for the type), [Some run] when it
      does, [run] being the function that executes at run time.  Every
      specialisation a body names is instantiated whether or not the run
      reaches the call, which is why the recursive call is bound before the
      run-time function is built;
    - a call returns an [outcome]: a value, an exception, undefined
      behaviour, or [IllFormed] when the call does not compile. *)

From Stdlib Require Import NArith Lia.
From stdpp Require Import base option list strings.

Local Open Scope N_scope.

(** ** [stddef.h], [stdexcept], [string_view] *)

Abbreviation size_t := N (only parsing).

Definition SIZE_MAX : size_t := 2 ^ 64 - 1.

(** Unsigned subtraction of two [size_t], with its wrap-around below
    zero. *)
Definition size_t_sub (a b : size_t) : size_t :=
  if b <=? a then a - b else a + 2 ^ 64 - b.

Abbreviation string_view := string (only parsing).

Inductive exception : Type :=
| out_of_range (what : string).

Inductive outcome (A : Type) : Type :=
| Returns (a : A)
| Throws (e : exception)
| Undefined
| IllFormed.

Arguments Returns {A} a.
Arguments Throws {A} e.
Arguments Undefined {A}.
Arguments IllFormed {A}.

(** [sizeof...(pack)] *)
Definition sizeof {A : Type} (pack : list A) : size_t := N.of_nat (length pack).

(** ** [template<typename T, T... ARGS> struct tlist] *)

Module tlist.
Section tlist.
Context {T : Type}.
Variable ARGS : list T.

Definition size : size_t := sizeof ARGS.

(** [T values[sizeof...(ARGS)] = {ARGS...};] *)
Definition values : list T := ARGS.

(** [operator[]]: [return values[i_];], a built-in array subscript with
    no check of the index. *)
Definition operator_subscript (i_ : size_t) : outcome T :=
  match values !! N.to_nat i_ with
  | Some v => Returns v
  | None => Undefined
  end.
End tlist.
End tlist.

(** ** [template <typename... ARGS> struct tstrlist]

    "a variable-sized list of tstr's": an argument [tstr(s)] is the type of
    a captureless lambda returning [std::string_view(s)], and is given here
    by [s]; [T()()] is then [s] itself. *)

Module tstrlist.
Section tstrlist.
Variable ARGS : list string.

Definition size : size_t := sizeof ARGS.

(** [get_helper<N, T, REST...>], by recursion on the pack [T, REST...]
    that each recursive call shortens by one. *)
Fixpoint get_helper (N : size_t) (pack : list string)
  : option (size_t -> outcome string_view) :=
  match pack with
  | [] => None
  | T :: REST =>
      if N <? sizeof ARGS then
        rest ← (if N =? 0
                 then Some (fun _ => Throws (out_of_range "index error in get_helper"))
                 else get_helper (N - 1) REST);
        Some (fun i => if i =? N then Returns T else rest i)
      else None
  end.

(** [operator[]]: [return get_helper<sizeof...(ARGS) - 1, ARGS...>(i);] *)
Definition operator_subscript (i : size_t) : outcome string_view :=
  match get_helper (size_t_sub (sizeof ARGS) 1) ARGS with
  | Some run => run i
  | None => IllFormed
  end.
End tstrlist.
End tstrlist.

(** ** [template <typename... ARGS> struct thlist]

    The element types differ from slot to slot; [T] stands for the union of
    their values, so that a generic visitor is a function on [T].  [ARGS]
    lists, slot by slot, the default-constructed instance [ARGS()] that
    [items] holds.  [W] is whatever the visitor's captures refer to: a
    visitor is run for its effect on it, and is taken to return normally.
    A call hands an element to the visitor once at most, so what a visitor
    does to the element through the reference it is handed counts as part
    of that effect.
    The template parameter [N] is a [nat]: both entry points require
    [sizeof...(ARGS) > 0], so [sizeof...(ARGS) - 1] does not wrap. *)

Module thlist.
Section thlist.
Context {T W : Type}.
Variable ARGS : list T.

Definition VISITOR : Type := T -> W -> W.

Definition size : size_t := sizeof ARGS.

(** [std::tuple<ARGS...> items = {ARGS()...};] *)
Definition items : list T := ARGS.

(** [visit<N>(visitor)] *)
Fixpoint visit_N (N : nat) : option (VISITOR -> W -> outcome unit * W) :=
  if (N <? length ARGS)%nat then
    x ← items !! N;
    match N with
    | O => Some (fun visitor w => (Returns tt, visitor x w))
    | S N' =>
        rest ← visit_N N';
        Some (fun visitor w => rest visitor (visitor x w))
    end
  else None.

(** [visit(visitor)] *)
Definition visit (visitor : VISITOR) (w : W) : outcome unit * W :=
  match (if (0 <? length ARGS)%nat then visit_N (length ARGS - 1) else None) with
  | Some run => run visitor w
  | None => (IllFormed, w)
  end.

(** [ivisit<N>(visitor, i)]: the [throw] that ends the body is reached
    whenever the recursive call returns; an exception of the recursive
    call passes through. *)
Fixpoint ivisit (N : nat) : option (VISITOR -> size_t -> W -> outcome unit * W) :=
  if (N <? length ARGS)%nat then
    x ← items !! N;
    match N with
    | O =>
        Some (fun visitor i w =>
                let w1 := if i =? N.of_nat N then visitor x w else w in
                (Throws (out_of_range "out of range in ivisit"), w1))
    | S N' =>
        rest ← ivisit N';
        Some (fun visitor i w =>
                let w1 := if i =? N.of_nat N then visitor x w else w in
                match rest visitor i w1 with
                | (Returns _, w2) => (Throws (out_of_range "out of range in ivisit"), w2)
                | (raised, w2) => (raised, w2)
                end)
    end
  else None.

(** [visit(visitor, i)] *)
Definition visit_i (visitor : VISITOR) (i : size_t) (w : W) : outcome unit * W :=
  match (if (0 <? length ARGS)%nat then ivisit (length ARGS - 1) else None) with
  | Some run => run visitor i w
  | None => (IllFormed, w)
  end.
End thlist.
End thlist.

(** ** [template<typename KEY, typename VALUE, typename... KVPAIRS> struct tmap]

    [tmap] is handed types: the key type, the value type and one
    [std::pair<tstr(k), V>] per binding, whose default-constructed instance
    carries the key as [first()] and the bound value as [second].  The
    types that occur in this use are listed by [type].  Every class among
    them is stateless, so a default-constructed object is known by its
    type, and a returned [VALUE] object is given by that type.  A lambda
    type is named by its string: [tstr(s)] is read as one type wherever it
    occurs, as it is once an alias names it.

    The list is the one of [instance3]: a map from [std::string_view] to
    [tstrlist]s.  A key type [std::string] and bindings to [tlist]s, which
    the header also speaks of, are not in it; what is said of [tmap] for
    every map is said of the maps over these types, and the run-time
    calls of a map over other bound lists are those of [tmap_calls]
    below. *)

Inductive type : Type :=
| std_string_view
| tstr (s : string)
| tstrlist_t (ARGS : list string)
| std_pair (T1 T2 : type).

Fixpoint type_eqb (a b : type) : bool :=
  match a, b with
  | std_string_view, std_string_view => true
  | tstr s, tstr s' => String.eqb s s'
  | tstrlist_t l, tstrlist_t l' => bool_decide (l = l')
  | std_pair a1 a2, std_pair b1 b2 => type_eqb a1 b1 && type_eqb a2 b2
  | _, _ => false
  end.

Module tmap.

Record t : Type := tmap { KEY : type; VALUE : type; KVPAIRS : list type }.

(** [KV().first()], where [KV().first] is a lambda to call. *)
Definition first_call (KV : type) : option string_view :=
  match KV with
  | std_pair (tstr k) _ => Some k
  | _ => None
  end.

(** The type of [KV().second]. *)
Definition second (KV : type) : option type :=
  match KV with
  | std_pair _ T2 => Some T2
  | _ => None
  end.

(** [KV().first() == key_] compares a [std::string_view] with a [KEY]. *)
Definition equality_comparable (KEY : type) : bool :=
  match KEY with
  | std_string_view => true
  | _ => false
  end.

(** [KV().second.size()]: a [tstrlist] has its [size()], and so has a
    [std::string_view], empty when default-constructed. *)
Definition second_size (KV : type) : option size_t :=
  T2 ← second KV;
  match T2 with
  | tstrlist_t ARGS => Some (tstrlist.size ARGS)
  | std_string_view => Some 0
  | _ => None
  end.

(** [KV().second[i_]], returned as a [VALUE]: the [std::string_view] that
    [tstrlist::operator[]] gives has to convert to it. *)
Definition second_subscript (VALUE : type) (KV : type)
  : option (size_t -> outcome string_view) :=
  T2 ← second KV;
  match T2, VALUE with
  | tstrlist_t ARGS, std_string_view =>
      tstrlist.get_helper ARGS (size_t_sub (sizeof ARGS) 1) ARGS
  | _, _ => None
  end.

(** [KV().second], returned as a [VALUE]. *)
Definition second_value (VALUE : type) (KV : type) : option type :=
  T2 ← second KV;
  if type_eqb T2 VALUE then Some T2 else None.

Section tmap.
Variable m : t.

(** [size()]: "return number of keys in map" *)
Definition size : size_t := sizeof (KVPAIRS m).

(** [size_helper<N, KV, REST...>] *)
Fixpoint size_helper (N : size_t) (pack : list type)
  : option (string_view -> outcome size_t) :=
  match pack with
  | [] => None
  | KV :: REST =>
      if N <? sizeof (KVPAIRS m) then
        k ← (if equality_comparable (KEY m) then first_call KV else None);
        n ← second_size KV;
        rest ← (if N =? 0
                 then Some (fun _ => Throws (out_of_range "couldn't find key in tmap in size_helper"))
                 else size_helper (N - 1) REST);
        Some (fun key_ => if String.eqb k key_ then Returns n else rest key_)
      else None
  end.

(** [size(key_)]: "get the number of values in a tlist associated with
    key_" *)
Definition size_key (key_ : string_view) : outcome size_t :=
  match size_helper (size_t_sub (sizeof (KVPAIRS m)) 1) (KVPAIRS m) with
  | Some run => run key_
  | None => IllFormed
  end.

(** [index_helper<N, KV, REST...>] *)
Fixpoint index_helper (N : size_t) (pack : list type)
  : option (string_view -> outcome type) :=
  match pack with
  | [] => None
  | KV :: REST =>
      if N <? sizeof (KVPAIRS m) then
        k ← (if equality_comparable (KEY m) then first_call KV else None);
        v ← second_value (VALUE m) KV;
        rest ← (if N =? 0
                 then Some (fun _ => Throws (out_of_range "couldn't find key in tmap in index_helper"))
                 else index_helper (N - 1) REST);
        Some (fun key_ => if String.eqb k key_ then Returns v else rest key_)
      else None
  end.

(** [operator[]]: "get the value associated with key_";
    [return index_helper<sizeof...(KVPAIRS) - 1, VALUE, KVPAIRS...>(key_);] *)
Definition operator_subscript (key_ : string_view) : outcome type :=
  match index_helper (size_t_sub (sizeof (KVPAIRS m)) 1) (VALUE m :: KVPAIRS m) with
  | Some run => run key_
  | None => IllFormed
  end.

(** [get_helper<N, KV, REST...>] *)
Fixpoint get_helper (N : size_t) (pack : list type)
  : option (string_view -> size_t -> outcome string_view) :=
  match pack with
  | [] => None
  | KV :: REST =>
      if N <? sizeof (KVPAIRS m) then
        k ← (if equality_comparable (KEY m) then first_call KV else None);
        at_ ← second_subscript (VALUE m) KV;
        rest ← (if N =? 0
                 then Some (fun _ _ => Throws (out_of_range "couldn't find key in tmap in get_helper"))
                 else get_helper (N - 1) REST);
        Some (fun key_ i_ => if String.eqb k key_ then at_ i_ else rest key_ i_)
      else None
  end.

(** [operator()]: "get the ith element in a list that key_ refers to";
    [return get_helper<sizeof...(KVPAIRS) - 1, KVPAIRS...>(key_, i_);] *)
Definition operator_call (key_ : string_view) (i_ : size_t) : outcome string_view :=
  match get_helper (size_t_sub (sizeof (KVPAIRS m)) 1) (KVPAIRS m) with
  | Some run => run key_ i_
  | None => IllFormed
  end.
End tmap.
End tmap.

(** ** The instances of [test.cc] *)

(** [tstrlist<tstr("chicken"), tstr("beef")>], the [GROUPS] of [instance3] *)
Definition groups : list string := ["chicken"; "beef"]%string.

(** The [GROUPDEFS] of [instance3]. *)
Definition groupdefs : tmap.t :=
  tmap.tmap std_string_view std_string_view
    [ std_pair (tstr "chicken") (tstrlist_t ["foo"; "bar"]%string);
      std_pair (tstr "beef") (tstrlist_t ["baz"; "bat"]%string) ].

(** A map from a key to a whole list, [VALUE] being the type bound:
    [using foo = tstrlist<tstr("foo")>;
     tmap<std::string_view, foo, std::pair<tstr("a"), foo>>]. *)
Definition plain_map : tmap.t :=
  tmap.tmap std_string_view (tstrlist_t ["foo"]%string)
    [ std_pair (tstr "a") (tstrlist_t ["foo"]%string) ].

(** ** Vocabulary of the properties *)

(** A map whose values are String Sequences, from its bindings in
    declaration order: [VALUE] is the type of the elements of the lists. *)
Definition binding : Type := string * list string.

Definition KV_of (b : binding) : type := std_pair (tstr b.1) (tstrlist_t b.2).

Definition strmap (bindings : list binding) : tmap.t :=
  tmap.tmap std_string_view std_string_view (KV_of <$> bindings).

(** The sequence of the first binding whose key equals [key]. *)
Fixpoint first_binding (key : string) (bindings : list binding) : option (list string) :=
  match bindings with
  | [] => None
  | b :: rest => if String.eqb b.1 key then Some b.2 else first_binding key rest
  end.

(** [m[key].at(i)]: [operator[]] of the map, then [operator[]] of the
    String Sequence it returned. *)
Definition subscript_then_at (m : tmap.t) (key : string_view) (i : size_t)
  : outcome string_view :=
  match tmap.operator_subscript m key with
  | Returns (tstrlist_t ARGS) => tstrlist.operator_subscript ARGS i
  | Returns _ => IllFormed
  | Throws e => Throws e
  | Undefined => Undefined
  | IllFormed => IllFormed
  end.

(** The visitor applied to each of [xs] in turn. *)
Definition visited {T W : Type} (visitor : @thlist.VISITOR T W) (xs : list T) (w : W) : W :=
  fold_left (fun w x => visitor x w) xs w.

(** The visitor that records what it is handed, in call order. *)
Definition record {T : Type} : @thlist.VISITOR T (list T) := fun x log => log ++ [x].

(** A call compiles when some specialisation exists for it. *)
Definition compiles {A : Type} (o : outcome A) : Prop := o <> IllFormed.


(** A map all of whose bindings hold a value of the type [VALUE] itself,
    from its keys in declaration order:
    [tmap<std::string_view, V, std::pair<tstr(k), V>...>]. *)
Definition constant_map (V : type) (keys : list string) : tmap.t :=
  tmap.tmap std_string_view V ((fun k => std_pair (tstr k) V) <$> keys).

(** ** The calls that a run nests

    [operator[]] of a [tstrlist], [size(key_)] and [operator()] of a
    [tmap] and both [visit] of a [thlist] run through helpers that call
    themselves with [N - 1].  Here each is written as it runs, call after
    call: [fuel] is the number of calls that the run may still nest, and
    the result is [None] when they are used up before the run has ended.
    [size()] is a constant and [tlist::operator[]] a single read; a
    visitor is taken to return. *)

Module tlist_calls.
Definition operator_subscript {T : Type} (ARGS : list T) (fuel : nat) (i_ : size_t)
  : option (outcome T) :=
  match fuel with
  | O => None
  | S _ => Some (tlist.operator_subscript ARGS i_)
  end.
End tlist_calls.

Module tstrlist_calls.
Section tstrlist_calls.
Variable ARGS : list string.

(** [get_helper<N, T, REST...>(i)] *)
Fixpoint get_helper (fuel : nat) (N : size_t) (pack : list string) (i : size_t)
  : option (outcome string_view) :=
  match fuel with
  | O => None
  | S fuel' =>
      match pack with
      | [] => Some IllFormed
      | T :: REST =>
          if N <? sizeof ARGS then
            if i =? N then Some (Returns T)
            else if N =? 0
                 then Some (Throws (out_of_range "index error in get_helper"))
                 else get_helper fuel' (N - 1) REST i
          else Some IllFormed
      end
  end.

(** [operator[](i)] *)
Definition operator_subscript (fuel : nat) (i : size_t) : option (outcome string_view) :=
  match fuel with
  | O => None
  | S fuel' => get_helper fuel' (size_t_sub (sizeof ARGS) 1) ARGS i
  end.
End tstrlist_calls.
End tstrlist_calls.

(** The helpers of [tmap] ask of a bound value its [size()] and its
    [operator[]], whatever its type: a binding is given by its key and by
    an [A] that stands for the bound list, with what the two members do. *)

Module tmap_calls.
Section tmap_calls.
Context {A VALUE : Type}.
Variable second_size : A -> size_t.
Variable second_subscript : A -> nat -> size_t -> option (outcome VALUE).
Variable KVPAIRS : list (string * A).

(** [size_helper<N, KV, REST...>(key_)] *)
Fixpoint size_helper (fuel : nat) (N : size_t) (pack : list (string * A))
    (key_ : string_view) : option (outcome size_t) :=
  match fuel with
  | O => None
  | S fuel' =>
      match pack with
      | [] => Some IllFormed
      | KV :: REST =>
          if N <? sizeof KVPAIRS then
            if String.eqb KV.1 key_ then Some (Returns (second_size KV.2))
            else if N =? 0
                 then Some (Throws (out_of_range "couldn't find key in tmap in size_helper"))
                 else size_helper fuel' (N - 1) REST key_
          else Some IllFormed
      end
  end.

(** [size(key_)] *)
Definition size_key (fuel : nat) (key_ : string_view) : option (outcome size_t) :=
  match fuel with
  | O => None
  | S fuel' => size_helper fuel' (size_t_sub (sizeof KVPAIRS) 1) KVPAIRS key_
  end.

(** [get_helper<N, KV, REST...>(key_, i_)] *)
Fixpoint get_helper (fuel : nat) (N : size_t) (pack : list (string * A))
    (key_ : string_view) (i_ : size_t) : option (outcome VALUE) :=
  match fuel with
  | O => None
  | S fuel' =>
      match pack with
      | [] => Some IllFormed
      | KV :: REST =>
          if N <? sizeof KVPAIRS then
            if String.eqb KV.1 key_ then second_subscript KV.2 fuel' i_
            else if N =? 0
                 then Some (Throws (out_of_range "couldn't find key in tmap in get_helper"))
                 else get_helper fuel' (N - 1) REST key_ i_
          else Some IllFormed
      end
  end.

(** [operator()(key_, i_)] *)
Definition operator_call (fuel : nat) (key_ : string_view) (i_ : size_t)
  : option (outcome VALUE) :=
  match fuel with
  | O => None
  | S fuel' => get_helper fuel' (size_t_sub (sizeof KVPAIRS) 1) KVPAIRS key_ i_
  end.
End tmap_calls.
End tmap_calls.

Module thlist_calls.
Section thlist_calls.
Context {T W : Type}.
Variable ARGS : list T.

(** [visit<N>(visitor)] *)
Fixpoint visit_N (fuel : nat) (N : nat) (visitor : @thlist.VISITOR T W) (w : W)
  : option (outcome unit * W) :=
  match fuel with
  | O => None
  | S fuel' =>
      if (N <? length ARGS)%nat then
        match ARGS !! N with
        | Some x =>
            match N with
            | O => Some (Returns tt, visitor x w)
            | S N' => visit_N fuel' N' visitor (visitor x w)
            end
        | None => Some (IllFormed, w)
        end
      else Some (IllFormed, w)
  end.

(** [visit(visitor)] *)
Definition visit (fuel : nat) (visitor : @thlist.VISITOR T W) (w : W)
  : option (outcome unit * W) :=
  match fuel with
  | O => None
  | S fuel' =>
      if (0 <? length ARGS)%nat then visit_N fuel' (length ARGS - 1) visitor w
      else Some (IllFormed, w)
  end.

(** [ivisit<N>(visitor, i)] *)
Fixpoint ivisit (fuel : nat) (N : nat) (visitor : @thlist.VISITOR T W) (i : size_t) (w : W)
  : option (outcome unit * W) :=
  match fuel with
  | O => None
  | S fuel' =>
      if (N <? length ARGS)%nat then
        match ARGS !! N with
        | Some x =>
            let w1 := if i =? N.of_nat N then visitor x w else w in
            match N with
            | O => Some (Throws (out_of_range "out of range in ivisit"), w1)
            | S N' =>
                match ivisit fuel' N' visitor i w1 with
                | Some (Returns _, w2) =>
                    Some (Throws (out_of_range "out of range in ivisit"), w2)
                | ended => ended
                end
            end
        | None => Some (IllFormed, w)
        end
      else Some (IllFormed, w)
  end.

(** [visit(visitor, i)] *)
Definition visit_i (fuel : nat) (visitor : @thlist.VISITOR T W) (i : size_t) (w : W)
  : option (outcome unit * W) :=
  match fuel with
  | O => None
  | S fuel' =>
      if (0 <? length ARGS)%nat then ivisit fuel' (length ARGS - 1) visitor i w
      else Some (IllFormed, w)
  end.
End thlist_calls.
End thlist_calls.

(** The value bound first to [key], in declaration order. *)
Fixpoint first_bound {A : Type} (key : string) (pack : list (string * A)) : option A :=
  match pack with
  | [] => None
  | KV :: REST => if String.eqb KV.1 key then Some KV.2 else first_bound key REST
  end.

(** ** The consumers of [test.cc]: [calc2] and [calc3]

    A member function reads and writes its locals and the members of its
    object, and stops at the first call that throws: a statement is a
    function from this state to an outcome and the state it leaves.
    [double] is left abstract; its addition, its multiplication and the
    conversion of an integer to it are parameters of which nothing is
    assumed.  A loop counter stays below the size it runs up to, so [++]
    does not wrap. *)

Definition stmt (S A : Type) : Type := S -> outcome A * S.

Definition stmt_ret {S A : Type} (a : A) : stmt S A := fun s => (Returns a, s).

Definition stmt_bind {S A B : Type} (k : A -> stmt S B) (c : stmt S A) : stmt S B :=
  fun s =>
    match c s with
    | (Returns a, s') => k a s'
    | (Throws e, s') => (Throws e, s')
    | (Undefined, s') => (Undefined, s')
    | (IllFormed, s') => (IllFormed, s')
    end.

#[global] Instance stmt_mret {S : Type} : MRet (stmt S) := @stmt_ret S.
#[global] Instance stmt_mbind {S : Type} : MBind (stmt S) := @stmt_bind S.

(** A call of a container, which touches no local and no member. *)
Definition call {S A : Type} (o : outcome A) : stmt S A := fun s => (o, s).

Definition modify {S : Type} (f : S -> S) : stmt S unit := fun s => (Returns tt, f s).

(** [for (size_t i = first; i < n; ++i) body], with [count] turns left
    to run from [i]. *)
Fixpoint for_loop {S : Type} (count : nat) (i : size_t) (body : size_t -> stmt S unit)
  : stmt S unit :=
  match count with
  | O => mret tt
  | S count' => _ ← body i; for_loop count' (i + 1) body
  end.

(** Whether a call compiles depends on no run-time argument. *)
Definition ill_formed {A : Type} (o : outcome A) : bool :=
  match o with
  | IllFormed => true
  | _ => false
  end.

(** [template <typename GROUPS, typename GROUPDEFS, typename GROUPCOEFS>
    class calc3], with a [tstrlist], a [tmap] and a [tlist<double, ...>]. *)

Module calc3.
Section calc3.
Context {double : Type}.
Variable of_integer : N -> double.
Variables add mul : double -> double -> double.
Variable GROUPS : list string.
Variable GROUPDEFS : tmap.t.
Variable GROUPCOEFS : list double.

(** The locals [sum], [ctr] and [tctr] of [update], and the member
    [double _values[GROUPS::size() * GROUPCOEFS::size()]]. *)
Record frame : Type := Frame {
  sum : double;
  ctr : size_t;
  tctr : size_t;
  _values : list double
}.

(** [_values[ctr++] = sum;] *)
Definition store_sum : stmt frame unit :=
  fun f =>
    if ctr f <? N.of_nat (length (_values f))
    then (Returns tt,
          Frame (sum f) (ctr f + 1) (tctr f) (<[N.to_nat (ctr f) := sum f]> (_values f)))
    else (Undefined, f).

(** [return _values[ctr-1];] *)
Definition load_last : stmt frame double :=
  fun f =>
    if size_t_sub (ctr f) 1 <? N.of_nat (length (_values f))
    then match _values f !! N.to_nat (size_t_sub (ctr f) 1) with
         | Some v => (Returns v, f)
         | None => (Undefined, f)
         end
    else (Undefined, f).

Definition update_body : stmt frame double :=
  _ ← for_loop (N.to_nat (tstrlist.size GROUPS)) 0 (fun i =>
        _ ← modify (fun f => Frame (sum f) (ctr f) 0 (_values f));
        group ← call (tstrlist.operator_subscript GROUPS i);
        groupsize ← call (tmap.size_key GROUPDEFS group);
        _ ← for_loop (N.to_nat groupsize) 0 (fun ni =>
              name ← call (tmap.operator_call GROUPDEFS group ni);
              if String.eqb name "baz"
              then modify (fun f => Frame (sum f) (ctr f) (tctr f + 1) (_values f))
              else mret tt);
        for_loop (N.to_nat (tlist.size GROUPCOEFS)) 0 (fun j =>
              coef ← call (tlist.operator_subscript GROUPCOEFS j);
              _ ← modify (fun f => Frame (add (sum f) (mul (of_integer (tctr f)) coef))
                                     (ctr f) (tctr f) (_values f));
              store_sum));
  load_last.

(** [update()] on an object whose [_values] holds [values], with what it
    holds afterwards.  The body names [operator[]] of [GROUPS] and
    [size(key_)] and [operator()] of [GROUPDEFS]: it compiles when the
    three do. *)
Definition update (values : list double) : outcome double * list double :=
  if ill_formed (tstrlist.operator_subscript GROUPS 0)
     || ill_formed (tmap.size_key GROUPDEFS "")
     || ill_formed (tmap.operator_call GROUPDEFS "" 0)
  then (IllFormed, values)
  else
    let (result, f) := update_body (Frame (of_integer 0) 0 0 values) in
    (result, _values f).
End calc3.
End calc3.

(** [template <typename COEFS, typename IDS> class calc2], with a
    [tlist<double, ...>] and a [tlist<uint64_t, ...>]. *)

Module calc2.
Section calc2.
Context {double : Type}.
Variable of_integer : N -> double.
Variables add mul : double -> double -> double.
Variable COEFS : list double.
Variable IDS : list N.

(** The locals [sum] and [ctr] of [update], and the member
    [double _values[COEFS::size() * IDS::size()]]. *)
Record frame : Type := Frame {
  sum : double;
  ctr : size_t;
  _values : list double
}.

(** [_values[ctr++] = sum;] *)
Definition store_sum : stmt frame unit :=
  fun f =>
    if ctr f <? N.of_nat (length (_values f))
    then (Returns tt, Frame (sum f) (ctr f + 1) (<[N.to_nat (ctr f) := sum f]> (_values f)))
    else (Undefined, f).

(** [return _values[ctr-1];] *)
Definition load_last : stmt frame double :=
  fun f =>
    if size_t_sub (ctr f) 1 <? N.of_nat (length (_values f))
    then match _values f !! N.to_nat (size_t_sub (ctr f) 1) with
         | Some v => (Returns v, f)
         | None => (Undefined, f)
         end
    else (Undefined, f).

Definition update_body : stmt frame double :=
  _ ← for_loop (N.to_nat (tlist.size COEFS)) 0 (fun i =>
        for_loop (N.to_nat (tlist.size IDS)) 0 (fun j =>
          coef ← call (tlist.operator_subscript COEFS i);
          id ← call (tlist.operator_subscript IDS j);
          _ ← modify (fun f => Frame (add (sum f) (mul coef (of_integer id)))
                                 (ctr f) (_values f));
          store_sum));
  load_last.

(** [update()] on an object whose [_values] holds [values], with what it
    holds afterwards. *)
Definition update (values : list double) : outcome double * list double :=
  let (result, f) := update_body (Frame (of_integer 0) 0 values) in
  (result, _values f).
End calc2.
End calc2.

(** How many of the strings of [l] are [s]. *)
Fixpoint occurrences (s : string) (l : list string) : N :=
  match l with
  | [] => 0
  | x :: l' => (if String.eqb x s then 1 else 0) + occurrences s l'
  end.

(** What [calc3::update] adds up, group after group in the order given:
    for each group the coefficients in declaration order, each times the
    number of "baz" in the list bound to the group; a group that is bound
    to nothing ends it. *)
Fixpoint sum_of_groups {double : Type} (of_integer : N -> double)
    (add mul : double -> double -> double)
    (bindings : list binding) (GROUPCOEFS : list double)
    (groups : list string) (sum : double) : outcome double :=
  match groups with
  | [] => Returns sum
  | group :: groups' =>
      match first_binding group bindings with
      | Some ARGS =>
          sum_of_groups of_integer add mul bindings GROUPCOEFS groups'
            (fold_left
               (fun sum coef => add sum (mul (of_integer (occurrences "baz" ARGS)) coef))
               GROUPCOEFS sum)
      | None => Throws (out_of_range "couldn't find key in tmap in size_helper")
      end
  end.

(** * Properties *)

(** ** [size_t] *)

Lemma size_t_sub_pos (a : size_t) : 0 < a -> size_t_sub a 1 = a - 1.
Proof.
  intros Ha. unfold size_t_sub.
  destruct (N.leb_spec 1 a); [reflexivity | lia].
Qed.

Lemma size_t_sub_zero : size_t_sub 0 1 = SIZE_MAX.
Proof. reflexivity. Qed.

Lemma sizeof_pos {A : Type} (pack : list A) : pack <> [] -> 0 < sizeof pack.
Proof. destruct pack; [congruence | unfold sizeof; simpl; lia]. Qed.

(** ** [tlist] *)

Lemma tlist_subscript_in_range {T : Type} (ARGS : list T) (i : size_t) (v : T) :
  ARGS !! N.to_nat i = Some v -> tlist.operator_subscript ARGS i = Returns v.
Proof. intros H. unfold tlist.operator_subscript, tlist.values. now rewrite H. Qed.

Lemma tlist_subscript_out_of_range {T : Type} (ARGS : list T) (i : size_t) :
  tlist.size ARGS <= i -> tlist.operator_subscript ARGS i = Undefined.
Proof.
  unfold tlist.size, sizeof, tlist.operator_subscript, tlist.values. intros H.
  rewrite (proj2 (lookup_ge_None ARGS (N.to_nat i))); [reflexivity | lia].
Qed.

(** ** [tstrlist] *)

(** What [get_helper<N, T, REST...>] computes when the pack holds [N + 1]
    types: the pack is read from its end. *)
Lemma tstrlist_get_helper_rev (ARGS pack : list string) :
  forall N : size_t,
    length pack = S (N.to_nat N) ->
    N < sizeof ARGS ->
    exists run,
      tstrlist.get_helper ARGS N pack = Some run /\
      forall i, run i = match rev pack !! N.to_nat i with
                        | Some s => Returns s
                        | None => Throws (out_of_range "index error in get_helper")
                        end.
Proof.
  induction pack as [|T REST IH]; intros N Hlen HN; simpl in Hlen; [lia|].
  simpl. destruct (N.ltb_spec N (sizeof ARGS)) as [_|]; [|lia].
  destruct (N.eqb_spec N 0) as [->|HN0].
  - destruct REST; simpl in Hlen; [|lia].
    eexists; split; [reflexivity|]. intros i. simpl.
    destruct (N.eqb_spec i 0) as [->|Hi]; [reflexivity|].
    destruct (N.to_nat i) eqn:E; [lia | reflexivity].
  - destruct (IH (N - 1)) as (rest & -> & Hrest); [lia | lia |].
    eexists; split; [reflexivity|]. intros i. simpl.
    assert (Hl : length (rev REST) = N.to_nat N) by (rewrite length_rev; lia).
    destruct (N.eqb_spec i N) as [->|Hi].
    + rewrite lookup_app_r by lia. rewrite Hl, Nat.sub_diag. reflexivity.
    + rewrite Hrest. destruct (N.lt_ge_cases i N).
      * rewrite lookup_app_l by lia. reflexivity.
      * rewrite !(proj2 (lookup_ge_None _ _)); [reflexivity | | ].
        -- rewrite length_app. simpl. lia.
        -- lia.
Qed.

(** [operator[]] of a non-empty String Sequence reads the declared strings
    from the last one: index [i] gives the string declared at position
    [size() - 1 - i]. *)
Lemma tstrlist_subscript_rev (ARGS : list string) (i : size_t) :
  ARGS <> [] ->
  tstrlist.operator_subscript ARGS i =
    match rev ARGS !! N.to_nat i with
    | Some s => Returns s
    | None => Throws (out_of_range "index error in get_helper")
    end.
Proof.
  intros Hne. pose proof (sizeof_pos ARGS Hne) as Hpos.
  unfold tstrlist.operator_subscript. rewrite size_t_sub_pos by exact Hpos.
  destruct (tstrlist_get_helper_rev ARGS ARGS (sizeof ARGS - 1)) as (run & -> & Hrun).
  - unfold sizeof in *. lia.
  - lia.
  - apply Hrun.
Qed.

(** No [get_helper] specialisation exists for an empty String Sequence. *)
Lemma tstrlist_subscript_empty (i : size_t) :
  tstrlist.operator_subscript [] i = IllFormed.
Proof. reflexivity. Qed.

Lemma tstrlist_subscript_out_of_range (ARGS : list string) (i : size_t) :
  ARGS <> [] -> tstrlist.size ARGS <= i ->
  tstrlist.operator_subscript ARGS i = Throws (out_of_range "index error in get_helper").
Proof.
  intros Hne Hi. rewrite tstrlist_subscript_rev by exact Hne.
  rewrite (proj2 (lookup_ge_None _ _)); [reflexivity|].
  rewrite length_rev. unfold tstrlist.size, sizeof in Hi. lia.
Qed.

Lemma tstrlist_subscript_in_range (ARGS : list string) (i : size_t) :
  i < tstrlist.size ARGS ->
  exists s, rev ARGS !! N.to_nat i = Some s /\
            tstrlist.operator_subscript ARGS i = Returns s.
Proof.
  intros Hi. unfold tstrlist.size, sizeof in Hi.
  destruct (rev ARGS !! N.to_nat i) as [s|] eqn:E.
  - exists s. split; [reflexivity|].
    rewrite tstrlist_subscript_rev, E; [reflexivity|].
    intros ->. simpl in Hi. lia.
  - apply lookup_ge_None in E. rewrite length_rev in E. lia.
Qed.

(** ** [tmap] over String Sequences *)

Lemma first_call_KV_of (b : binding) : tmap.first_call (KV_of b) = Some b.1.
Proof. reflexivity. Qed.

Lemma second_size_KV_of (b : binding) :
  tmap.second_size (KV_of b) = Some (tstrlist.size b.2).
Proof. reflexivity. Qed.

(** [size_helper<N, KV, REST...>] over a pack of [N + 1] bindings: a scan
    in declaration order that stops at the first equal key. *)
Lemma size_helper_scan (all : list binding) (pack : list binding) :
  forall N : size_t,
    length pack = S (N.to_nat N) ->
    N < sizeof all ->
    exists run,
      tmap.size_helper (strmap all) N (KV_of <$> pack) = Some run /\
      forall key_, run key_ =
        match first_binding key_ pack with
        | Some ARGS => Returns (tstrlist.size ARGS)
        | None => Throws (out_of_range "couldn't find key in tmap in size_helper")
        end.
Proof.
  induction pack as [|b REST IH]; intros N Hlen HN; simpl in Hlen; [lia|].
  cbn [fmap list_fmap tmap.size_helper]. 
  replace (sizeof (tmap.KVPAIRS (strmap all))) with (sizeof all)
    by (unfold strmap, sizeof; simpl; now rewrite length_fmap).
  destruct (N.ltb_spec N (sizeof all)) as [_|]; [|lia].
  cbn [strmap tmap.KEY tmap.equality_comparable].
  rewrite first_call_KV_of, second_size_KV_of. cbn [mbind option_bind].
  destruct (N.eqb_spec N 0) as [->|HN0].
  - destruct REST; simpl in Hlen; [|lia].
    eexists; split; [reflexivity|]. intros key_. simpl.
    destruct (String.eqb b.1 key_); reflexivity.
  - destruct (IH (N - 1)) as (rest & Hrest & Hscan); [lia | lia |].
    cbn [fmap] in Hrest. rewrite Hrest.
    eexists; split; [reflexivity|]. intros key_. simpl.
    destruct (String.eqb b.1 key_); [reflexivity | apply Hscan].
Qed.

Lemma second_subscript_KV_of (b : binding) :
  b.2 <> [] ->
  exists at_,
    tmap.second_subscript std_string_view (KV_of b) = Some at_ /\
    forall i_, at_ i_ = tstrlist.operator_subscript b.2 i_.
Proof.
  intros Hne. pose proof (sizeof_pos _ Hne) as Hpos.
  unfold tstrlist.operator_subscript. cbn [tmap.second_subscript tmap.second KV_of mbind option_bind].
  destruct (tstrlist_get_helper_rev b.2 b.2 (size_t_sub (sizeof b.2) 1)) as (run & -> & _).
  - rewrite size_t_sub_pos by exact Hpos. unfold sizeof in *. lia.
  - rewrite size_t_sub_pos by exact Hpos. lia.
  - eexists; split; reflexivity.
Qed.

(** [get_helper<N, KV, REST...>] over a pack of [N + 1] bindings to
    non-empty String Sequences: the same scan, ending in [operator[]] of
    the sequence found. *)
Lemma get_helper_scan (all : list binding) (pack : list binding) :
  Forall (fun b : binding => b.2 <> []) pack ->
  forall N : size_t,
    length pack = S (N.to_nat N) ->
    N < sizeof all ->
    exists run,
      tmap.get_helper (strmap all) N (KV_of <$> pack) = Some run /\
      forall key_ i_, run key_ i_ =
        match first_binding key_ pack with
        | Some ARGS => tstrlist.operator_subscript ARGS i_
        | None => Throws (out_of_range "couldn't find key in tmap in get_helper")
        end.
Proof.
  induction 1 as [|b REST Hb _ IH]; intros N Hlen HN; simpl in Hlen; [lia|].
  cbn [fmap list_fmap tmap.get_helper].
  replace (sizeof (tmap.KVPAIRS (strmap all))) with (sizeof all)
    by (unfold strmap, sizeof; simpl; now rewrite length_fmap).
  destruct (N.ltb_spec N (sizeof all)) as [_|]; [|lia].
  cbn [strmap tmap.KEY tmap.VALUE tmap.equality_comparable].
  rewrite first_call_KV_of.
  destruct (second_subscript_KV_of b Hb) as (at_ & -> & Hat).
  cbn [mbind option_bind].
  destruct (N.eqb_spec N 0) as [->|HN0].
  - destruct REST; simpl in Hlen; [|lia].
    eexists; split; [reflexivity|]. intros key_ i_. simpl.
    destruct (String.eqb b.1 key_); [apply Hat | reflexivity].
  - destruct (IH (N - 1)) as (rest & Hrest & Hscan); [lia | lia |].
    cbn [fmap] in Hrest. rewrite Hrest.
    eexists; split; [reflexivity|]. intros key_ i_. simpl.
    destruct (String.eqb b.1 key_); [apply Hat | apply Hscan].
Qed.

Lemma sizeof_strmap (bindings : list binding) :
  sizeof (tmap.KVPAIRS (strmap bindings)) = sizeof bindings.
Proof. unfold strmap, sizeof. simpl. now rewrite length_fmap. Qed.

Lemma tmap_size_key_scan (bindings : list binding) (key_ : string_view) :
  bindings <> [] ->
  tmap.size_key (strmap bindings) key_ =
    match first_binding key_ bindings with
    | Some ARGS => Returns (tstrlist.size ARGS)
    | None => Throws (out_of_range "couldn't find key in tmap in size_helper")
    end.
Proof.
  intros Hne. pose proof (sizeof_pos _ Hne) as Hpos.
  unfold tmap.size_key. rewrite sizeof_strmap, size_t_sub_pos by exact Hpos.
  destruct (size_helper_scan bindings bindings (sizeof bindings - 1)) as (run & Hrun & Hscan).
  - unfold sizeof in *. lia.
  - lia.
  - cbn [strmap tmap.KVPAIRS]. rewrite Hrun. apply Hscan.
Qed.

Lemma tmap_call_scan (bindings : list binding) (key_ : string_view) (i_ : size_t) :
  bindings <> [] ->
  Forall (fun b : binding => b.2 <> []) bindings ->
  tmap.operator_call (strmap bindings) key_ i_ =
    match first_binding key_ bindings with
    | Some ARGS => tstrlist.operator_subscript ARGS i_
    | None => Throws (out_of_range "couldn't find key in tmap in get_helper")
    end.
Proof.
  intros Hne Hall. pose proof (sizeof_pos _ Hne) as Hpos.
  unfold tmap.operator_call. rewrite sizeof_strmap, size_t_sub_pos by exact Hpos.
  destruct (get_helper_scan bindings bindings Hall (sizeof bindings - 1)) as (run & Hrun & Hscan).
  - unfold sizeof in *. lia.
  - lia.
  - cbn [strmap tmap.KVPAIRS]. rewrite Hrun. apply Hscan.
Qed.

(** On a map of String Sequences [VALUE] is the type of the elements, "we
    need to access them differently": [index_helper] has no specialisation
    that returns a whole sequence as a [VALUE]. *)
Lemma index_helper_strmap (bindings : list binding) (N : size_t) :
  tmap.index_helper (strmap bindings) N (tmap.KVPAIRS (strmap bindings)) = None.
Proof.
  destruct bindings as [|b rest]; [reflexivity|].
  cbn [strmap tmap.KVPAIRS fmap list_fmap tmap.index_helper].
  destruct (_ <? _); reflexivity.
Qed.

(** No type is its own [second]: the conversion that [index_helper] asks
    of [VALUE().second] when [VALUE] is bound to [KV] never exists. *)
Lemma type_eqb_second (T2 : type) : forall T1, type_eqb T2 (std_pair T1 T2) = false.
Proof.
  induction T2 as [| s | l | A IHA B IHB]; intros T1; try reflexivity.
  simpl. rewrite (IHB A). apply andb_false_r.
Qed.

(** [operator[]] binds [VALUE] to the [KV] of [index_helper]: whatever the
    map, no specialisation exists. *)
Lemma tmap_subscript_ill_formed (m : tmap.t) (key_ : string_view) :
  tmap.operator_subscript m key_ = IllFormed.
Proof.
  unfold tmap.operator_subscript. cbn [tmap.index_helper].
  destruct (_ <? _); [|reflexivity].
  destruct (tmap.equality_comparable (tmap.KEY m)); [|reflexivity].
  destruct (tmap.VALUE m) as [| s | l | T1 T2]; try reflexivity.
  destruct T1; try reflexivity.
  cbn [tmap.first_call tmap.second_value tmap.second mbind option_bind].
  rewrite type_eqb_second. reflexivity.
Qed.

(** ** [thlist] *)

Section thlist_facts.
Context {T W : Type}.
Implicit Types (ARGS : list T) (visitor : @thlist.VISITOR T W) (w : W).

(** [visit<N>] applies the visitor to slots [N], [N - 1], ..., [0], in
    this order, and returns. *)
Lemma visit_N_descends ARGS :
  forall N : nat,
    (N < length ARGS)%nat ->
    exists run,
      thlist.visit_N ARGS N = Some run /\
      forall visitor w,
        run visitor w = (Returns tt, visited visitor (rev (take (S N) ARGS)) w).
Proof.
  induction N as [|N IH]; intros HN.
  - destruct ARGS as [|x ARGS']; simpl in HN; [lia|].
    eexists; split; [reflexivity|]. reflexivity.
  - destruct (lookup_lt_is_Some_2 ARGS (S N) HN) as [x Hx].
    destruct IH as (rest & Hrest & Hrun); [lia|].
    cbn [thlist.visit_N]. unfold thlist.items.
    destruct (Nat.ltb_spec (S N) (length ARGS)) as [_|]; [|lia].
    rewrite Hx, Hrest. cbn [mbind option_bind].
    eexists; split; [reflexivity|]. intros visitor w. cbn beta.
    rewrite Hrun, (take_S_r ARGS (S N) x Hx), rev_app_distr. reflexivity.
Qed.

Lemma thlist_visit_descends ARGS visitor w :
  ARGS <> [] ->
  thlist.visit ARGS visitor w = (Returns tt, visited visitor (rev ARGS) w).
Proof.
  intros Hne. unfold thlist.visit.
  assert (Hlen : (0 < length ARGS)%nat) by (destruct ARGS; [congruence | simpl; lia]).
  destruct (Nat.ltb_spec 0 (length ARGS)) as [_|]; [|lia].
  destruct (visit_N_descends ARGS (length ARGS - 1)) as (run & -> & Hrun); [lia|].
  rewrite Hrun. replace (S (length ARGS - 1)) with (length ARGS) by lia.
  now rewrite firstn_all.
Qed.

(** [ivisit<N>] applies the visitor to slot [i] when [i <= N], to nothing
    otherwise, and throws in both cases. *)
Lemma ivisit_throws ARGS :
  forall N : nat,
    (N < length ARGS)%nat ->
    exists run,
      thlist.ivisit ARGS N = Some run /\
      forall visitor i w,
        run visitor i w =
          (Throws (out_of_range "out of range in ivisit"),
           if i <=? N.of_nat N
           then match ARGS !! N.to_nat i with
                | Some x => visitor x w
                | None => w
                end
           else w).
Proof.
  induction N as [|N IH]; intros HN.
  - destruct ARGS as [|x ARGS']; simpl in HN; [lia|].
    eexists; split; [reflexivity|]. intros visitor i w. cbn beta zeta.
    change (N.of_nat 0) with 0.
    destruct (N.eqb_spec i 0) as [->|Hi]; [reflexivity|].
    destruct (N.leb_spec i 0); [lia | reflexivity].
  - destruct (lookup_lt_is_Some_2 ARGS (S N) HN) as [x Hx].
    destruct IH as (rest & Hrest & Hrun); [lia|].
    cbn [thlist.ivisit]. unfold thlist.items.
    destruct (Nat.ltb_spec (S N) (length ARGS)) as [_|]; [|lia].
    rewrite Hx, Hrest. cbn [mbind option_bind].
    eexists; split; [reflexivity|]. intros visitor i w. cbn beta zeta.
    rewrite Hrun.
    destruct (N.eqb_spec i (N.of_nat (S N))) as [->|Hi].
    + destruct (N.leb_spec (N.of_nat (S N)) (N.of_nat N)); [lia|].
      rewrite N.leb_refl, Nat2N.id, Hx. reflexivity.
    + destruct (N.leb_spec i (N.of_nat N)), (N.leb_spec i (N.of_nat (S N)));
        try lia; reflexivity.
Qed.

Lemma thlist_visit_i_throws ARGS visitor (i : size_t) w :
  ARGS <> [] ->
  thlist.visit_i ARGS visitor i w =
    (Throws (out_of_range "out of range in ivisit"),
     match ARGS !! N.to_nat i with
     | Some x => visitor x w
     | None => w
     end).
Proof.
  intros Hne. unfold thlist.visit_i.
  assert (Hlen : (0 < length ARGS)%nat) by (destruct ARGS; [congruence | simpl; lia]).
  destruct (Nat.ltb_spec 0 (length ARGS)) as [_|]; [|lia].
  destruct (ivisit_throws ARGS (length ARGS - 1)) as (run & -> & Hrun); [lia|].
  rewrite Hrun.
  destruct (N.leb_spec i (N.of_nat (length ARGS - 1))); [reflexivity|].
  rewrite (proj2 (lookup_ge_None ARGS (N.to_nat i))); [reflexivity | lia].
Qed.

Lemma thlist_visit_empty visitor w :
  thlist.visit [] visitor w = (IllFormed, w).
Proof. reflexivity. Qed.

Lemma thlist_visit_i_empty visitor (i : size_t) w :
  thlist.visit_i [] visitor i w = (IllFormed, w).
Proof. reflexivity. Qed.
End thlist_facts.

(** ** Auxiliary facts *)

Lemma rev_lookup {A : Type} (l : list A) (i : nat) :
  (i < length l)%nat -> rev l !! i = l !! (length l - S i)%nat.
Proof. intros Hi. rewrite rev_alt. now apply reverse_lookup. Qed.

Lemma visited_record {T : Type} (xs log : list T) : visited record xs log = log ++ xs.
Proof.
  unfold visited. revert log. induction xs as [|x xs IH]; intros log; simpl.
  - now rewrite app_nil_r.
  - rewrite IH. unfold record. now rewrite <- app_assoc.
Qed.

(** [first_binding] finds nothing exactly when no binding has the key. *)
Lemma first_binding_None (key : string) (bindings : list binding) :
  first_binding key bindings = None <-> Forall (fun b : binding => b.1 <> key) bindings.
Proof.
  induction bindings as [|b rest IH]; simpl.
  - split; [constructor | reflexivity].
  - destruct (String.eqb_spec b.1 key) as [E|E].
    + split; [discriminate | intros H; inversion H; contradiction].
    + rewrite IH. split; [now constructor | intros H; now inversion H].
Qed.

(** What [first_binding] finds is bound to the key, after bindings to
    other keys only. *)
Lemma first_binding_Some (key : string) (bindings : list binding) (ARGS : list string) :
  first_binding key bindings = Some ARGS <->
  exists before after,
    bindings = before ++ (key, ARGS) :: after /\
    Forall (fun b : binding => b.1 <> key) before.
Proof.
  induction bindings as [|b rest IH]; simpl.
  - split; [discriminate | intros (before & after & H & _); now destruct before].
  - destruct (String.eqb_spec b.1 key) as [E|E].
    + split.
      * intros [= <-]. exists [], rest. split; [|constructor].
        destruct b; simpl in *; now subst.
      * intros (before & after & H & Hb). destruct before as [|b' before]; simpl in H.
        -- now inversion H.
        -- inversion H; subst. inversion Hb; contradiction.
    + rewrite IH. split.
      * intros (before & after & -> & Hb). exists (b :: before), after.
        split; [reflexivity | now constructor].
      * intros (before & after & H & Hb). destruct before as [|b' before]; simpl in H.
        -- inversion H; subst. simpl in E. contradiction.
        -- inversion H; subst. inversion Hb; subst. now exists before, after.
Qed.

(** * The claims *)

(** C1.  A Constant Sequence returns at index [i] the value supplied at
    position [i].  A String Sequence does not: the value supplied at
    position [i] is the one returned at index [size() - 1 - i], because
    [get_helper] counts [N] down while it takes the strings from the front
    of the pack. *)
Theorem subscript_of_supplied_value :
  (forall (T : Type) (ARGS : list T) (i : size_t) (v : T),
      ARGS !! N.to_nat i = Some v ->
      tlist.operator_subscript ARGS i = Returns v) /\
  (forall (ARGS : list string) (i : size_t) (v : string),
      ARGS !! N.to_nat i = Some v ->
      tstrlist.operator_subscript ARGS (tstrlist.size ARGS - 1 - i) = Returns v).
Proof.
  split.
  - intros T ARGS i v H. now apply tlist_subscript_in_range.
  - intros ARGS i v H. pose proof (lookup_lt_Some _ _ _ H) as Hlt.
    rewrite tstrlist_subscript_rev by (intros ->; simpl in Hlt; lia).
    unfold tstrlist.size, sizeof. rewrite rev_lookup by lia.
    replace (length ARGS - S (N.to_nat (N.of_nat (length ARGS) - 1 - i)))%nat
      with (N.to_nat i) by lia.
    now rewrite H.
Qed.

Lemma subscript_of_supplied_value_witness :
  tlist.operator_subscript [5; 7; -3]%Z 1 = Returns 7%Z /\
  tstrlist.operator_subscript ["foo"; "bar"]%string 0 = Returns "bar"%string.
Proof.
  split.
  - exact (proj1 subscript_of_supplied_value Z [5; 7; -3]%Z 1 7%Z eq_refl).
  - exact (proj2 subscript_of_supplied_value ["foo"; "bar"]%string 1 "bar"%string eq_refl).
Defined.

(** C2.  On a non-empty Heterogeneous Sequence, [visit(visitor, i)] applies
    the visitor to the element of slot [i] when there is one and to nothing
    otherwise, and then throws [std::out_of_range] in both cases: the
    recorded calls are the one element, or none, and the call never
    returns. *)
Theorem visit_i_always_throws {T : Type} (ARGS : list T) (i : size_t) :
  ARGS <> [] ->
  (forall (W : Type) (visitor : @thlist.VISITOR T W) (w : W),
      thlist.visit_i ARGS visitor i w =
        (Throws (out_of_range "out of range in ivisit"),
         match ARGS !! N.to_nat i with
         | Some x => visitor x w
         | None => w
         end)) /\
  thlist.visit_i ARGS record i [] =
    (Throws (out_of_range "out of range in ivisit"),
     match ARGS !! N.to_nat i with
     | Some x => [x]
     | None => []
     end).
Proof.
  intros Hne. split.
  - intros W visitor w. now apply thlist_visit_i_throws.
  - rewrite thlist_visit_i_throws by exact Hne.
    destruct (ARGS !! N.to_nat i); reflexivity.
Qed.

Lemma visit_i_always_throws_witness :
  thlist.visit_i ["A"; "B"; "C"]%string record 1 [] =
    (Throws (out_of_range "out of range in ivisit"), ["B"]%string).
Proof.
  apply (visit_i_always_throws ["A"; "B"; "C"]%string 1). discriminate.
Defined.

(** C3.  [operator[]] of an Associative Map does not compile, whatever the
    map and the key: it hands [VALUE] to [index_helper] as the first
    binding.  Handed the bindings alone, as [size(key_)] and [operator()]
    hand them to their helpers, [index_helper] returns the value of the
    binding found. *)
Theorem tmap_subscript_never_compiles :
  (forall (m : tmap.t) (key_ : string_view), tmap.operator_subscript m key_ = IllFormed) /\
  (fun run => run "a"%string) <$> tmap.index_helper plain_map 0 (tmap.KVPAIRS plain_map)
    = Some (Returns (tstrlist_t ["foo"]%string)).
Proof.
  split; [|reflexivity].
  intros m key_. apply tmap_subscript_ill_formed.
Qed.

(** C4.  On the map of [instance3], [operator()("beef", 0)] returns "bat",
    "baz" being at index 1, and [size("chicken")] returns 2. *)
Theorem groupdefs_beef_chicken :
  tmap.operator_call groupdefs "beef" 0 = Returns "bat"%string /\
  tmap.operator_call groupdefs "beef" 1 = Returns "baz"%string /\
  tmap.size_key groupdefs "chicken" = Returns 2.
Proof. repeat split; reflexivity. Qed.

(** C5.  On a non-empty String Sequence, [operator[]] at an index
    [i >= size()] throws [std::out_of_range].  On a Constant Sequence it
    does not: [tlist<int64_t, 5, 7, -3>()[3]] reads [values] one past its
    end, unchecked, and throws nothing. *)
Theorem subscript_past_the_end :
  (forall (ARGS : list string) (i : size_t),
      ARGS <> [] -> tstrlist.size ARGS <= i ->
      tstrlist.operator_subscript ARGS i = Throws (out_of_range "index error in get_helper")) /\
  tlist.size [5; 7; -3]%Z <= 3 /\
  tlist.operator_subscript [5; 7; -3]%Z 3 = Undefined /\
  ~ (exists e, tlist.operator_subscript [5; 7; -3]%Z 3 = Throws e).
Proof.
  split; [|split; [|split]].
  - intros ARGS i Hne Hi. now apply tstrlist_subscript_out_of_range.
  - intros H. discriminate H.
  - reflexivity.
  - intros [e H]. discriminate H.
Qed.

Lemma subscript_past_the_end_witness :
  tstrlist.size groups <= 2 /\
  tstrlist.operator_subscript groups 2 = Throws (out_of_range "index error in get_helper").
Proof.
  assert (Hle : tstrlist.size groups <= 2) by (intros H; discriminate H).
  split; [exact Hle|].
  apply (proj1 subscript_past_the_end groups 2); [discriminate | exact Hle].
Defined.

(** C6, as stated, fails on the map of [instance3]: [operator()] returns a
    string where [operator[]] followed by the sequence's [operator[]] does
    not compile. *)
Lemma groupdefs_call_is_not_subscript_then_at :
  tmap.operator_call groupdefs "beef" 0 <> subscript_then_at groupdefs "beef" 0.
Proof. discriminate. Qed.

(** C6, amended.  On a non-empty map whose values are non-empty String
    Sequences, [operator()(key_, i_)] is [operator[](i_)] of the sequence
    of the first binding whose key equals [key_]; it throws the sequence's
    [std::out_of_range] when [i_] is out of range for that sequence, and
    the map's [std::out_of_range] when no binding has the key. *)
Theorem tmap_call_scan_then_subscript
  (bindings : list binding) (key_ : string_view) (i_ : size_t) :
  bindings <> [] ->
  Forall (fun b : binding => b.2 <> []) bindings ->
  (forall ARGS, first_binding key_ bindings = Some ARGS ->
     tmap.operator_call (strmap bindings) key_ i_ = tstrlist.operator_subscript ARGS i_ /\
     (tstrlist.size ARGS <= i_ ->
      tmap.operator_call (strmap bindings) key_ i_ =
        Throws (out_of_range "index error in get_helper"))) /\
  (Forall (fun b : binding => b.1 <> key_) bindings ->
   tmap.operator_call (strmap bindings) key_ i_ =
     Throws (out_of_range "couldn't find key in tmap in get_helper")).
Proof.
  intros Hne Hall. rewrite (tmap_call_scan bindings key_ i_ Hne Hall). split.
  - intros ARGS HARGS. rewrite HARGS. split; [reflexivity|].
    intros Hi. apply tstrlist_subscript_out_of_range; [|exact Hi].
    apply first_binding_Some in HARGS as (before & after & -> & _).
    rewrite Forall_app, Forall_cons in Hall. now destruct Hall as (_ & ? & _).
  - intros Habsent. apply first_binding_None in Habsent. now rewrite Habsent.
Qed.

Lemma groupdefs_is_strmap :
  groupdefs = strmap [("chicken", ["foo"; "bar"]); ("beef", ["baz"; "bat"])]%string.
Proof. reflexivity. Qed.

Lemma tmap_call_scan_then_subscript_witness :
  tmap.operator_call groupdefs "beef" 1 = tstrlist.operator_subscript ["baz"; "bat"]%string 1 /\
  tmap.operator_call groupdefs "beef" 2 = Throws (out_of_range "index error in get_helper") /\
  tmap.operator_call groupdefs "pork" 0 =
    Throws (out_of_range "couldn't find key in tmap in get_helper").
Proof.
  assert (Hne : [("chicken", ["foo"; "bar"]); ("beef", ["baz"; "bat"])]%string
                <> ([] : list binding)) by discriminate.
  assert (Hall : Forall (fun b : binding => b.2 <> [])
                   [("chicken", ["foo"; "bar"]); ("beef", ["baz"; "bat"])]%string)
    by (repeat constructor; discriminate).
  split; [|split].
  - apply (proj1 (tmap_call_scan_then_subscript _ "beef"%string 1 Hne Hall)
             ["baz"; "bat"]%string eq_refl).
  - apply (proj1 (tmap_call_scan_then_subscript _ "beef"%string 2 Hne Hall)
             ["baz"; "bat"]%string eq_refl).
    intros H; discriminate H.
  - apply (proj2 (tmap_call_scan_then_subscript _ "pork"%string 0 Hne Hall)).
    repeat constructor; discriminate.
Defined.

(** C7.  On a non-empty Heterogeneous Sequence of [N] elements,
    [visit(visitor)] returns after applying the visitor to the elements of
    slots [N - 1], [N - 2], ..., [0] in this order: [N] calls are recorded,
    and the [k]-th of them is handed the element of slot [N - 1 - k]. *)
Theorem visit_descending {T : Type} (ARGS : list T) :
  ARGS <> [] ->
  (forall (W : Type) (visitor : @thlist.VISITOR T W) (w : W),
      thlist.visit ARGS visitor w = (Returns tt, visited visitor (rev ARGS) w)) /\
  thlist.visit ARGS record [] = (Returns tt, rev ARGS) /\
  length (snd (thlist.visit ARGS record [])) = length ARGS /\
  (forall k : nat,
      (k < length ARGS)%nat ->
      snd (thlist.visit ARGS record []) !! k = ARGS !! (length ARGS - 1 - k)%nat).
Proof.
  intros Hne.
  assert (Hrec : thlist.visit ARGS record [] = (Returns tt, rev ARGS)).
  { rewrite thlist_visit_descends by exact Hne. now rewrite visited_record. }
  split; [|split; [|split]].
  - intros W visitor w. now apply thlist_visit_descends.
  - exact Hrec.
  - rewrite Hrec. apply length_rev.
  - intros k Hk. rewrite Hrec. simpl. rewrite rev_lookup by exact Hk.
    f_equal. lia.
Qed.

Lemma visit_descending_witness :
  thlist.visit ["A"; "B"; "C"]%string record [] = (Returns tt, ["C"; "B"; "A"]%string).
Proof.
  apply (visit_descending ["A"; "B"; "C"]%string). discriminate.
Defined.

(** C8, as stated, fails on a map without bindings: no binding has the key,
    and [size(key_)] does not throw, it does not compile. *)
Lemma size_key_without_bindings_throws_nothing :
  ~ exists e, tmap.size_key (strmap []) "chicken" = Throws e.
Proof. intros [e H]. discriminate H. Qed.

(** C8, amended.  On a non-empty map whose values are String Sequences,
    [size(key_)] returns the number of elements of the sequence of the
    first binding whose key equals [key_], and throws [std::out_of_range]
    if and only if no binding has the key. *)
Theorem tmap_size_key_first_binding (bindings : list binding) (key_ : string_view) :
  bindings <> [] ->
  (forall ARGS, first_binding key_ bindings = Some ARGS ->
     tmap.size_key (strmap bindings) key_ = Returns (tstrlist.size ARGS)) /\
  ((exists e, tmap.size_key (strmap bindings) key_ = Throws e) <->
   Forall (fun b : binding => b.1 <> key_) bindings) /\
  (Forall (fun b : binding => b.1 <> key_) bindings ->
   tmap.size_key (strmap bindings) key_ =
     Throws (out_of_range "couldn't find key in tmap in size_helper")).
Proof.
  intros Hne. rewrite (tmap_size_key_scan bindings key_ Hne).
  rewrite <- first_binding_None.
  destruct (first_binding key_ bindings) as [ARGS|]; repeat split.
  - now intros ? [= <-].
  - intros [e H]. discriminate H.
  - discriminate.
  - discriminate.
  - discriminate.
  - eauto.
Qed.

Lemma tmap_size_key_first_binding_witness :
  tmap.size_key groupdefs "chicken" = Returns 2 /\
  tmap.size_key groupdefs "pork" =
    Throws (out_of_range "couldn't find key in tmap in size_helper").
Proof.
  assert (Hne : [("chicken", ["foo"; "bar"]); ("beef", ["baz"; "bat"])]%string
                <> ([] : list binding)) by discriminate.
  split.
  - apply (proj1 (tmap_size_key_first_binding _ "chicken"%string Hne)
             ["foo"; "bar"]%string eq_refl).
  - apply (proj2 (proj2 (tmap_size_key_first_binding _ "pork"%string Hne))).
    repeat constructor; discriminate.
Defined.

(** ** The calls that a run nests: they end *)

(** The run of a specialisation of [tstrlist::get_helper<N, ...>] that
    exists nests [N + 1] calls at most, and ends as the specialisation
    says. *)
Lemma tstrlist_calls_get_helper (ARGS pack : list string) :
  forall (N : size_t) static,
    tstrlist.get_helper ARGS N pack = Some static ->
    forall (fuel : nat) (i : size_t),
      (N.to_nat N < fuel)%nat ->
      tstrlist_calls.get_helper ARGS fuel N pack i = Some (static i).
Proof.
  induction pack as [|T REST IH]; intros N static; simpl; [discriminate|].
  destruct (N.ltb_spec N (sizeof ARGS)) as [HN|]; [|discriminate].
  intros Hstatic fuel i Hfuel. destruct fuel as [|fuel']; [lia|].
  cbn [tstrlist_calls.get_helper].
  destruct (N.ltb_spec N (sizeof ARGS)) as [_|]; [|lia].
  destruct (N.eqb_spec N 0) as [->|HN0].
  - injection Hstatic as <-. destruct (i =? 0); reflexivity.
  - destruct (tstrlist.get_helper ARGS (N - 1) REST) as [rest|] eqn:E; [|discriminate].
    injection Hstatic as <-. simpl.
    destruct (i =? N); [reflexivity|]. apply (IH _ _ E). lia.
Qed.

Lemma tstrlist_calls_subscript (ARGS : list string) (fuel : nat) (i : size_t) :
  ARGS <> [] -> (length ARGS < fuel)%nat ->
  tstrlist_calls.operator_subscript ARGS fuel i = Some (tstrlist.operator_subscript ARGS i).
Proof.
  intros Hne Hfuel. pose proof (sizeof_pos ARGS Hne) as Hpos.
  destruct fuel as [|fuel']; [lia|].
  unfold tstrlist_calls.operator_subscript, tstrlist.operator_subscript.
  rewrite size_t_sub_pos by exact Hpos.
  destruct (tstrlist_get_helper_rev ARGS ARGS (sizeof ARGS - 1)) as (static & E & _).
  - unfold sizeof in *. lia.
  - lia.
  - rewrite E. apply (tstrlist_calls_get_helper _ _ _ _ E). unfold sizeof in *. lia.
Qed.

Lemma first_bound_binding (key : string) (bindings : list binding) :
  first_bound key bindings = first_binding key bindings.
Proof.
  induction bindings as [|b rest IH]; [reflexivity|].
  simpl. now rewrite IH.
Qed.

Section tmap_calls_facts.
Context {A VALUE : Type}.
Variable second_size : A -> size_t.
Variable second_subscript : A -> nat -> size_t -> option (outcome VALUE).
Variable KVPAIRS : list (string * A).

(** The run of [size_helper<N, ...>] over [N + 1] bindings nests [N + 1]
    calls at most, and ends at the first binding of the key or, past the
    last binding, by throwing. *)
Lemma tmap_calls_size_helper (key_ : string) (pack : list (string * A)) :
  forall (N : size_t) (fuel : nat),
    length pack = S (N.to_nat N) ->
    N < sizeof KVPAIRS ->
    (N.to_nat N < fuel)%nat ->
    tmap_calls.size_helper second_size KVPAIRS fuel N pack key_
    = Some match first_bound key_ pack with
           | Some a => Returns (second_size a)
           | None => Throws (out_of_range "couldn't find key in tmap in size_helper")
           end.
Proof.
  induction pack as [|KV REST IH]; intros N fuel Hlen HN Hfuel; simpl in Hlen; [lia|].
  destruct fuel as [|fuel']; [lia|].
  cbn [tmap_calls.size_helper first_bound].
  destruct (N.ltb_spec N (sizeof KVPAIRS)) as [_|]; [|lia].
  destruct (String.eqb KV.1 key_); [reflexivity|].
  destruct (N.eqb_spec N 0) as [->|HN0].
  - destruct REST; simpl in Hlen; [reflexivity | lia].
  - apply IH; lia.
Qed.

(** The same of [get_helper<N, ...>], when [operator[]] of every bound
    value ends within [depth] calls: [N + 1 + depth] calls at most. *)
Lemma tmap_calls_get_helper (value : A -> size_t -> outcome VALUE) (depth : nat)
    (key_ : string) (i_ : size_t) (pack : list (string * A)) :
  Forall (fun KV : string * A =>
            forall fuel i, (depth <= fuel)%nat ->
                           second_subscript KV.2 fuel i = Some (value KV.2 i)) pack ->
  forall (N : size_t) (fuel : nat),
    length pack = S (N.to_nat N) ->
    N < sizeof KVPAIRS ->
    (N.to_nat N + depth < fuel)%nat ->
    tmap_calls.get_helper second_subscript KVPAIRS fuel N pack key_ i_
    = Some match first_bound key_ pack with
           | Some a => value a i_
           | None => Throws (out_of_range "couldn't find key in tmap in get_helper")
           end.
Proof.
  induction 1 as [|KV REST HKV _ IH]; intros N fuel Hlen HN Hfuel; simpl in Hlen; [lia|].
  destruct fuel as [|fuel']; [lia|].
  cbn [tmap_calls.get_helper first_bound].
  destruct (N.ltb_spec N (sizeof KVPAIRS)) as [_|]; [|lia].
  destruct (String.eqb KV.1 key_); [apply HKV; lia|].
  destruct (N.eqb_spec N 0) as [->|HN0].
  - destruct REST; simpl in Hlen; [reflexivity | lia].
  - apply IH; lia.
Qed.
End tmap_calls_facts.

Section thlist_calls_facts.
Context {T W : Type}.
Variable ARGS : list T.

(** The run of [visit<N>] nests [N + 1] calls, and ends as the
    specialisation says. *)
Lemma thlist_calls_visit_N :
  forall (N : nat) static,
    @thlist.visit_N T W ARGS N = Some static ->
    forall (fuel : nat) visitor w,
      (N < fuel)%nat ->
      thlist_calls.visit_N ARGS fuel N visitor w = Some (static visitor w).
Proof.
  induction N as [|N IH]; intros static Hstatic fuel visitor w Hfuel;
    (destruct fuel as [|fuel']; [lia|]);
    cbn [thlist.visit_N thlist_calls.visit_N] in *; unfold thlist.items in *.
  - destruct (0 <? length ARGS)%nat; [|discriminate].
    destruct (ARGS !! 0%nat) as [x|]; [|discriminate].
    now injection Hstatic as <-.
  - destruct (S N <? length ARGS)%nat; [|discriminate].
    destruct (ARGS !! S N) as [x|]; [|discriminate]. cbn [mbind option_bind] in Hstatic.
    destruct (thlist.visit_N ARGS N) as [rest|] eqn:E; [|discriminate].
    injection Hstatic as <-. apply (IH _ eq_refl). lia.
Qed.

Lemma thlist_calls_ivisit :
  forall (N : nat) static,
    @thlist.ivisit T W ARGS N = Some static ->
    forall (fuel : nat) visitor (i : size_t) w,
      (N < fuel)%nat ->
      thlist_calls.ivisit ARGS fuel N visitor i w = Some (static visitor i w).
Proof.
  induction N as [|N IH]; intros static Hstatic fuel visitor i w Hfuel;
    (destruct fuel as [|fuel']; [lia|]);
    cbn [thlist.ivisit thlist_calls.ivisit] in *; unfold thlist.items in *.
  - destruct (0 <? length ARGS)%nat; [|discriminate].
    destruct (ARGS !! 0%nat) as [x|]; [|discriminate].
    now injection Hstatic as <-.
  - destruct (S N <? length ARGS)%nat; [|discriminate].
    destruct (ARGS !! S N) as [x|]; [|discriminate]. cbn [mbind option_bind] in Hstatic.
    destruct (thlist.ivisit ARGS N) as [rest|] eqn:E; [|discriminate].
    injection Hstatic as <-. cbn zeta.
    rewrite (IH _ eq_refl) by lia.
    destruct (rest visitor i _) as [[[]| | |] w2]; reflexivity.
Qed.
End thlist_calls_facts.

(** C9.  Every operation ends, whatever its arguments.  Run call after
    call, [operator[]] of a String Sequence of [n] strings nests [n + 1]
    calls at most, [size(key_)] of a map of [n] bindings [n + 1],
    [operator()] those and the calls of [operator[]] of the list found,
    and both [visit] of a Heterogeneous Sequence of [n] elements [n + 1],
    given a visitor that returns: allowed that many, the run ends, with
    the outcome of the operation.  [size()] is a constant and [operator[]]
    of a Constant Sequence a single read, also when a map is of Constant
    Sequences. *)
Theorem calls_end :
  (forall (ARGS : list string) (i : size_t) (fuel : nat),
      ARGS <> [] -> (length ARGS < fuel)%nat ->
      tstrlist_calls.operator_subscript ARGS fuel i
      = Some (tstrlist.operator_subscript ARGS i)) /\
  (forall (bindings : list binding) (key_ : string_view) (fuel : nat),
      bindings <> [] -> (length bindings < fuel)%nat ->
      tmap_calls.size_key tstrlist.size bindings fuel key_
      = Some (tmap.size_key (strmap bindings) key_)) /\
  (forall (bindings : list binding) (key_ : string_view) (i_ : size_t) (fuel : nat),
      bindings <> [] ->
      Forall (fun b : binding =>
                b.2 <> [] /\ (length bindings + length b.2 + 1 < fuel)%nat) bindings ->
      tmap_calls.operator_call tstrlist_calls.operator_subscript bindings fuel key_ i_
      = Some (tmap.operator_call (strmap bindings) key_ i_)) /\
  (forall (T : Type) (lists : list (string * list T)) (key_ : string_view) (i_ : size_t)
          (fuel : nat),
      lists <> [] -> (length lists + 1 < fuel)%nat ->
      tmap_calls.size_key tlist.size lists fuel key_
      = Some match first_bound key_ lists with
             | Some ARGS => Returns (tlist.size ARGS)
             | None => Throws (out_of_range "couldn't find key in tmap in size_helper")
             end /\
      tmap_calls.operator_call tlist_calls.operator_subscript lists fuel key_ i_
      = Some match first_bound key_ lists with
             | Some ARGS => tlist.operator_subscript ARGS i_
             | None => Throws (out_of_range "couldn't find key in tmap in get_helper")
             end) /\
  (forall (T W : Type) (ARGS : list T) (visitor : @thlist.VISITOR T W) (w : W) (fuel : nat),
      ARGS <> [] -> (length ARGS < fuel)%nat ->
      thlist_calls.visit ARGS fuel visitor w = Some (thlist.visit ARGS visitor w)) /\
  (forall (T W : Type) (ARGS : list T) (visitor : @thlist.VISITOR T W) (i : size_t) (w : W)
          (fuel : nat),
      ARGS <> [] -> (length ARGS < fuel)%nat ->
      thlist_calls.visit_i ARGS fuel visitor i w = Some (thlist.visit_i ARGS visitor i w)).
Proof.
  split; [|split; [|split; [|split; [|split]]]].
  - intros ARGS i fuel Hne Hfuel. now apply tstrlist_calls_subscript.
  - intros bindings key_ fuel Hne Hfuel. pose proof (sizeof_pos _ Hne) as Hpos.
    destruct fuel as [|fuel']; [lia|]. cbn [tmap_calls.size_key].
    rewrite size_t_sub_pos by exact Hpos.
    rewrite tmap_calls_size_helper by (unfold sizeof, binding in *; lia).
    rewrite tmap_size_key_scan, first_bound_binding by exact Hne. reflexivity.
  - intros bindings key_ i_ fuel Hne Hall. pose proof (sizeof_pos _ Hne) as Hpos.
    assert (Hlists : Forall (fun b : binding => b.2 <> []) bindings).
    { eapply Forall_impl; [exact Hall|]. now intros b [? _]. }
    assert (Hfuel : (length bindings + 1 < fuel)%nat).
    { destruct bindings as [|b rest]; [contradiction|].
      inversion Hall as [|? ? [_ Hb] _]; subst. lia. }
    destruct fuel as [|fuel']; [lia|]. cbn [tmap_calls.operator_call].
    rewrite size_t_sub_pos by exact Hpos.
    rewrite (tmap_calls_get_helper tstrlist_calls.operator_subscript bindings
               tstrlist.operator_subscript (S fuel' - length bindings - 1)).
    + rewrite tmap_call_scan, first_bound_binding by assumption. reflexivity.
    + eapply Forall_impl; [exact Hall|]. intros b [Hb Hlen] f i Hf.
      apply tstrlist_calls_subscript; [exact Hb | unfold binding in *; lia].
    + unfold sizeof, binding in *. lia.
    + unfold sizeof, binding in *. lia.
    + unfold sizeof, binding in *. lia.
  - intros T lists key_ i_ fuel Hne Hfuel. pose proof (sizeof_pos _ Hne) as Hpos.
    destruct fuel as [|fuel']; [lia|].
    cbn [tmap_calls.size_key tmap_calls.operator_call].
    rewrite size_t_sub_pos by exact Hpos. split.
    + apply tmap_calls_size_helper; unfold sizeof in *; lia.
    + apply (tmap_calls_get_helper tlist_calls.operator_subscript lists
               tlist.operator_subscript 1).
      * apply Forall_forall. intros KV _ f i Hf. destruct f; [lia | reflexivity].
      * unfold sizeof in *. lia.
      * lia.
      * unfold sizeof in *. lia.
  - intros T W ARGS visitor w fuel Hne Hfuel.
    assert (Hlen : (0 < length ARGS)%nat) by (destruct ARGS; [congruence | simpl; lia]).
    destruct fuel as [|fuel']; [lia|]. unfold thlist_calls.visit, thlist.visit.
    destruct (Nat.ltb_spec 0 (length ARGS)) as [_|]; [|lia].
    destruct (@visit_N_descends T W ARGS (length ARGS - 1)) as (static & E & _); [lia|].
    rewrite E. apply (thlist_calls_visit_N ARGS _ _ E). lia.
  - intros T W ARGS visitor i w fuel Hne Hfuel.
    assert (Hlen : (0 < length ARGS)%nat) by (destruct ARGS; [congruence | simpl; lia]).
    destruct fuel as [|fuel']; [lia|]. unfold thlist_calls.visit_i, thlist.visit_i.
    destruct (Nat.ltb_spec 0 (length ARGS)) as [_|]; [|lia].
    destruct (@ivisit_throws T W ARGS (length ARGS - 1)) as (static & E & _); [lia|].
    rewrite E. apply (thlist_calls_ivisit ARGS _ _ E). lia.
Qed.

Lemma calls_end_witness :
  tstrlist_calls.operator_subscript groups 3 2 = Some (tstrlist.operator_subscript groups 2) /\
  tmap_calls.size_key tstrlist.size
    [("chicken", ["foo"; "bar"]); ("beef", ["baz"; "bat"])]%string 3 "pork"
  = Some (tmap.size_key groupdefs "pork") /\
  tmap_calls.operator_call tstrlist_calls.operator_subscript
    [("chicken", ["foo"; "bar"]); ("beef", ["baz"; "bat"])]%string 6 "beef" 0
  = Some (tmap.operator_call groupdefs "beef" 0) /\
  tmap_calls.operator_call tlist_calls.operator_subscript
    [("a", [5; 7; -3]%Z)]%string 3 "a" 1
  = Some (Returns 7%Z) /\
  thlist_calls.visit ["A"; "B"; "C"]%string 4 record []
  = Some (thlist.visit ["A"; "B"; "C"]%string record []) /\
  thlist_calls.visit_i ["A"; "B"; "C"]%string 4 record 1 []
  = Some (thlist.visit_i ["A"; "B"; "C"]%string record 1 []).
Proof.
  destruct calls_end as (H1 & H2 & H3 & H4 & H5 & H6).
  split; [|split; [|split; [|split; [|split]]]].
  - apply H1; [discriminate | repeat constructor].
  - apply (H2 [("chicken", ["foo"; "bar"]); ("beef", ["baz"; "bat"])]%string);
      [discriminate | repeat constructor].
  - apply (H3 [("chicken", ["foo"; "bar"]); ("beef", ["baz"; "bat"])]%string);
      [discriminate|].
    repeat constructor; discriminate.
  - apply (H4 Z [("a", [5; 7; -3]%Z)]%string "a"%string 1 3%nat);
      [discriminate | repeat constructor].
  - apply H5; [discriminate | repeat constructor].
  - apply H6; [discriminate | repeat constructor].
Defined.

(** C10.  Neither [visit(visitor)] nor [visit(visitor, i)] compiles on an
    empty Heterogeneous Sequence, and both compile on every other one. *)
Theorem visit_requires_elements
  {T W : Type} (ARGS : list T) (visitor : @thlist.VISITOR T W) (i : size_t) (w : W) :
  (compiles (fst (thlist.visit ARGS visitor w)) <-> ARGS <> []) /\
  (compiles (fst (thlist.visit_i ARGS visitor i w)) <-> ARGS <> []).
Proof.
  unfold compiles. destruct ARGS as [|x ARGS'].
  - split; split; intros H; now contradiction H.
  - rewrite thlist_visit_descends, thlist_visit_i_throws by discriminate.
    split; split; intros _; discriminate.
Qed.

(** * Further properties of the containers *)

(** ** The helper templates, called with template arguments of one's own *)

Lemma tstrlist_get_helper_take (ARGS pack : list string) :
  forall N : size_t,
    N < sizeof ARGS ->
    (N.to_nat N < length pack)%nat ->
    tstrlist.get_helper ARGS N pack
    = tstrlist.get_helper ARGS N (take (S (N.to_nat N)) pack).
Proof.
  induction pack as [|T REST IH]; intros N HN Hlen; simpl in Hlen; [lia|].
  cbn [take tstrlist.get_helper].
  destruct (N <? sizeof ARGS); [|reflexivity].
  destruct (N.eqb_spec N 0) as [->|HN0]; [reflexivity|].
  replace (N.to_nat N) with (S (N.to_nat (N - 1))) by lia.
  rewrite <- IH by lia. reflexivity.
Qed.

Lemma tstrlist_get_helper_Some (ARGS pack : list string) :
  forall (N : size_t) run,
    tstrlist.get_helper ARGS N pack = Some run ->
    N < sizeof ARGS /\ (N.to_nat N < length pack)%nat.
Proof.
  induction pack as [|T REST IH]; intros N run; simpl; [discriminate|].
  destruct (N.ltb_spec N (sizeof ARGS)); [|discriminate].
  destruct (N.eqb_spec N 0) as [->|HN0]; [intros _; split; [assumption | lia]|].
  destruct (tstrlist.get_helper ARGS (N - 1) REST) as [rest|] eqn:E; [|discriminate].
  intros _. destruct (IH _ _ E). split; [assumption | lia].
Qed.

(** [tstrlist::get_helper<N, T, REST...>] is a public member template.  A
    specialisation exists exactly when [N < sizeof...(ARGS)] and the pack
    handed to it holds more than [N] types; it then answers from the first
    [N + 1] types of that pack alone, the last of them at index 0, whether
    or not they are the strings of the sequence. *)
Theorem tstrlist_get_helper_of_any_pack (ARGS pack : list string) (N : size_t) :
  (is_Some (tstrlist.get_helper ARGS N pack) <->
   N < sizeof ARGS /\ (N.to_nat N < length pack)%nat) /\
  (forall run,
      tstrlist.get_helper ARGS N pack = Some run ->
      forall i, run i = match rev (take (S (N.to_nat N)) pack) !! N.to_nat i with
                        | Some s => Returns s
                        | None => Throws (out_of_range "index error in get_helper")
                        end).
Proof.
  assert (Hrun : N < sizeof ARGS -> (N.to_nat N < length pack)%nat ->
                 exists run,
                   tstrlist.get_helper ARGS N pack = Some run /\
                   forall i, run i = match rev (take (S (N.to_nat N)) pack) !! N.to_nat i with
                                     | Some s => Returns s
                                     | None => Throws (out_of_range "index error in get_helper")
                                     end).
  { intros HN Hlen. rewrite tstrlist_get_helper_take by assumption.
    apply tstrlist_get_helper_rev; [|exact HN].
    rewrite length_take. lia. }
  split.
  - split.
    + intros [run E]. exact (tstrlist_get_helper_Some _ _ _ _ E).
    + intros [HN Hlen]. destruct (Hrun HN Hlen) as (run & -> & _). now exists run.
  - intros run E. destruct (tstrlist_get_helper_Some _ _ _ _ E) as [HN Hlen].
    destruct (Hrun HN Hlen) as (run' & E' & Hrun'). now replace run with run' by congruence.
Qed.

Lemma tstrlist_get_helper_of_any_pack_witness :
  (fun run => run 0) <$> tstrlist.get_helper groups 0 ["pork"; "lamb"]%string
  = Some (Returns "pork"%string).
Proof.
  destruct (tstrlist.get_helper groups 0 ["pork"; "lamb"]%string) as [run|] eqn:E.
  - simpl. f_equal.
    exact (proj2 (tstrlist_get_helper_of_any_pack groups ["pork"; "lamb"]%string 0) run E 0).
  - discriminate E.
Defined.

Section thlist_helpers.
Context {T W : Type}.
Implicit Types (ARGS : list T) (visitor : @thlist.VISITOR T W) (w : W).

Lemma visit_N_None ARGS (N : nat) :
  (length ARGS <= N)%nat -> @thlist.visit_N T W ARGS N = None.
Proof.
  intros H. destruct N as [|N']; cbn [thlist.visit_N].
  - destruct (Nat.ltb_spec 0 (length ARGS)); [lia | reflexivity].
  - destruct (Nat.ltb_spec (S N') (length ARGS)); [lia | reflexivity].
Qed.

Lemma ivisit_None ARGS (N : nat) :
  (length ARGS <= N)%nat -> @thlist.ivisit T W ARGS N = None.
Proof.
  intros H. destruct N as [|N']; cbn [thlist.ivisit].
  - destruct (Nat.ltb_spec 0 (length ARGS)); [lia | reflexivity].
  - destruct (Nat.ltb_spec (S N') (length ARGS)); [lia | reflexivity].
Qed.

(** [thlist::visit<N>(visitor)], called with an [N] of one's own, compiles
    exactly when [N < sizeof...(ARGS)]; it then applies the visitor to the
    elements of slots [N], [N - 1], ..., [0] only, in this order, and
    returns. *)
Theorem visit_N_of_any_N ARGS (N : nat) :
  (is_Some (@thlist.visit_N T W ARGS N) <-> (N < length ARGS)%nat) /\
  (forall run,
      thlist.visit_N ARGS N = Some run ->
      forall visitor w,
        run visitor w = (Returns tt, visited visitor (rev (take (S N) ARGS)) w)).
Proof.
  split.
  - split.
    + intros [run E]. destruct (Nat.lt_ge_cases N (length ARGS)) as [|Hge]; [assumption|].
      rewrite (visit_N_None ARGS N Hge) in E. discriminate E.
    + intros HN. destruct (@visit_N_descends T W ARGS N HN) as (run & -> & _). now exists run.
  - intros run E visitor w.
    destruct (Nat.lt_ge_cases N (length ARGS)) as [HN|Hge].
    + destruct (@visit_N_descends T W ARGS N HN) as (run' & E' & Hrun).
      replace run with run' by congruence. apply Hrun.
    + rewrite (visit_N_None ARGS N Hge) in E. discriminate E.
Qed.

(** [thlist::ivisit<N>(visitor, i)], called with an [N] of one's own,
    compiles exactly when [N < sizeof...(ARGS)]; it then applies the
    visitor to the element of slot [i] if [i <= N], to nothing if [i > N]
    even when slot [i] exists, and throws. *)
Theorem ivisit_of_any_N ARGS (N : nat) :
  (is_Some (@thlist.ivisit T W ARGS N) <-> (N < length ARGS)%nat) /\
  (forall run,
      thlist.ivisit ARGS N = Some run ->
      forall visitor (i : size_t) w,
        run visitor i w =
          (Throws (out_of_range "out of range in ivisit"),
           if i <=? N.of_nat N
           then match ARGS !! N.to_nat i with
                | Some x => visitor x w
                | None => w
                end
           else w)).
Proof.
  split.
  - split.
    + intros [run E]. destruct (Nat.lt_ge_cases N (length ARGS)) as [|Hge]; [assumption|].
      rewrite (ivisit_None ARGS N Hge) in E. discriminate E.
    + intros HN. destruct (@ivisit_throws T W ARGS N HN) as (run & -> & _). now exists run.
  - intros run E visitor i w.
    destruct (Nat.lt_ge_cases N (length ARGS)) as [HN|Hge].
    + destruct (@ivisit_throws T W ARGS N HN) as (run' & E' & Hrun).
      replace run with run' by congruence. apply Hrun.
    + rewrite (ivisit_None ARGS N Hge) in E. discriminate E.
Qed.
End thlist_helpers.

Lemma visit_N_of_any_N_witness :
  (fun run => run record []) <$> thlist.visit_N ["A"; "B"; "C"]%string 1
  = Some (Returns tt, ["B"; "A"]%string).
Proof.
  destruct (thlist.visit_N ["A"; "B"; "C"]%string 1) as [run|] eqn:E.
  - simpl. f_equal.
    exact (proj2 (visit_N_of_any_N ["A"; "B"; "C"]%string 1) run E record []).
  - discriminate E.
Defined.

Lemma ivisit_of_any_N_witness :
  (fun run => run record 2 []) <$> thlist.ivisit ["A"; "B"; "C"]%string 1
  = Some (Throws (out_of_range "out of range in ivisit"), ([] : list string)).
Proof.
  destruct (thlist.ivisit ["A"; "B"; "C"]%string 1) as [run|] eqn:E.
  - simpl. f_equal.
    exact (proj2 (ivisit_of_any_N ["A"; "B"; "C"]%string 1) run E record 2 []).
  - discriminate E.
Defined.

(** ** [visit(visitor)] and [visit(visitor, i)] *)

Lemma fold_left_pointwise {A B : Type} (f g : A -> B -> A) (l : list B) :
  (forall a b, f a b = g a b) -> forall a, fold_left f l a = fold_left g l a.
Proof.
  intros H. induction l as [|b l IH]; intros a; [reflexivity|].
  simpl. rewrite H. apply IH.
Qed.

Lemma fold_left_lookup_app {T W : Type} (visitor : @thlist.VISITOR T W) (l : list T) (x : T) :
  forall (indices : list nat) (w : W),
    Forall (fun i => (i < length l)%nat) indices ->
    fold_left (fun w i => match (l ++ [x]) !! i with
                          | Some y => visitor y w
                          | None => w
                          end) indices w
    = fold_left (fun w i => match l !! i with
                            | Some y => visitor y w
                            | None => w
                            end) indices w.
Proof.
  induction indices as [|i indices IH]; intros w H; [reflexivity|].
  inversion H; subst. simpl. rewrite lookup_app_l by assumption. now apply IH.
Qed.

Lemma fold_left_lookup_descending {T W : Type} (visitor : @thlist.VISITOR T W) (ARGS : list T) :
  forall w : W,
    fold_left (fun w i => match ARGS !! i with
                          | Some y => visitor y w
                          | None => w
                          end) (rev (seq 0 (length ARGS))) w
    = visited visitor (rev ARGS) w.
Proof.
  induction ARGS as [|x l IH] using rev_ind; intros w; [reflexivity|].
  rewrite length_app, Nat.add_1_r, seq_S, !rev_app_distr. simpl.
  rewrite list_lookup_middle by reflexivity.
  rewrite fold_left_lookup_app.
  - apply IH.
  - apply Forall_forall. intros i Hi. apply list_elem_of_In, in_rev, in_seq in Hi. lia.
Qed.

(** For a visitor that holds no state of its own, all that it changes
    being behind the references it captures: what [visit(visitor)] leaves
    behind is what [visit(visitor, i)] leaves behind when called, its
    exception caught, for [i] from [sizeof...(ARGS) - 1] down to [0].
    (Both take the visitor by value, so that state held in the visitor
    itself would go from slot to slot within one call and start anew at
    each call; [W] is not such state.) *)
Theorem visit_is_visit_i_descending
  {T W : Type} (ARGS : list T) (visitor : @thlist.VISITOR T W) (w : W) :
  snd (thlist.visit ARGS visitor w)
  = fold_left (fun w i => snd (thlist.visit_i ARGS visitor (N.of_nat i) w))
      (rev (seq 0 (length ARGS))) w.
Proof.
  destruct ARGS as [|x ARGS'] eqn:E; [reflexivity|]. rewrite <- E.
  assert (Hne : ARGS <> []) by (rewrite E; discriminate).
  rewrite thlist_visit_descends by exact Hne. simpl.
  rewrite <- fold_left_lookup_descending.
  apply fold_left_pointwise. intros w' i.
  rewrite thlist_visit_i_throws by exact Hne. simpl. now rewrite Nat2N.id.
Qed.

(** ** Which maps of String Sequences [size(key_)] and [operator()] compile on *)

(** [size_helper] uses the key type and the bindings of the map, not its
    [VALUE]. *)
Lemma size_helper_ext (m m' : tmap.t) (pack : list type) :
  tmap.equality_comparable (tmap.KEY m) = tmap.equality_comparable (tmap.KEY m') ->
  tmap.KVPAIRS m = tmap.KVPAIRS m' ->
  forall N, tmap.size_helper m N pack = tmap.size_helper m' N pack.
Proof.
  intros HK HP. induction pack as [|KV REST IH]; intros N; [reflexivity|].
  simpl. rewrite HK, HP, IH. reflexivity.
Qed.

(** A binding to an empty list has no [operator[]] to instantiate: a pack
    that holds one within the types that [get_helper] goes through has no
    specialisation. *)
Lemma get_helper_empty_list (all : list binding) (pack : list binding) :
  forall N : size_t,
    length pack = S (N.to_nat N) ->
    Exists (fun b : binding => b.2 = []) pack ->
    tmap.get_helper (strmap all) N (KV_of <$> pack) = None.
Proof.
  induction pack as [|b REST IH]; intros N Hlen Hex; [inversion Hex|].
  simpl in Hlen. cbn [fmap list_fmap tmap.get_helper].
  destruct (N <? sizeof (tmap.KVPAIRS (strmap all))); [|reflexivity].
  cbn [strmap tmap.KEY tmap.VALUE tmap.equality_comparable].
  rewrite first_call_KV_of. cbn [mbind option_bind].
  destruct (tmap.second_subscript std_string_view (KV_of b)) as [at_|] eqn:Eat;
    [|reflexivity].
  cbn [mbind option_bind].
  destruct (N.eqb_spec N 0) as [->|HN0].
  - destruct REST; simpl in Hlen; [|lia].
    inversion Hex as [? ? Hb|? ? Hrest]; subst; [|inversion Hrest].
    destruct b as [k ARGS]. simpl in Hb. subst ARGS. discriminate Eat.
  - inversion Hex as [? ? Hb|? ? Hrest]; subst.
    + destruct b as [k ARGS]. simpl in Hb. subst ARGS. discriminate Eat.
    + cbn [fmap] in IH. rewrite (IH (N - 1)); [reflexivity | lia | exact Hrest].
Qed.

(** On a map of String Sequences, [size(key_)] compiles exactly when the
    map holds a binding at least, empty lists being as good as others.
    [VALUE] plays no part in its result. *)
Theorem size_key_compiles (key_ : string_view) :
  (forall bindings,
      compiles (tmap.size_key (strmap bindings) key_) <-> bindings <> []) /\
  (forall (m : tmap.t) bindings,
      tmap.equality_comparable (tmap.KEY m) = true ->
      tmap.KVPAIRS m = KV_of <$> bindings ->
      tmap.size_key m key_ = tmap.size_key (strmap bindings) key_).
Proof.
  split.
  - intros bindings. unfold compiles. split.
    + intros H ->. now apply H.
    + intros Hne. rewrite tmap_size_key_scan by exact Hne.
      destruct (first_binding key_ bindings); discriminate.
  - intros m bindings HK HP. unfold tmap.size_key.
    rewrite (size_helper_ext m (strmap bindings)) by assumption.
    now rewrite HP.
Qed.

(** On a map of String Sequences, [operator()] compiles exactly when the
    map holds a binding at least and every list bound in it holds a string
    at least: one empty list makes the call ill-formed for every key,
    that of the empty list or another. *)
Theorem operator_call_compiles
  (bindings : list binding) (key_ : string_view) (i_ : size_t) :
  compiles (tmap.operator_call (strmap bindings) key_ i_) <->
  bindings <> [] /\ Forall (fun b : binding => b.2 <> []) bindings.
Proof.
  split.
  - unfold compiles. intros H.
    assert (Hne : bindings <> []) by (intros ->; now apply H).
    split; [exact Hne|].
    apply Forall_forall. intros b Hb Hempty. apply H.
    unfold tmap.operator_call. rewrite sizeof_strmap.
    rewrite size_t_sub_pos by now apply sizeof_pos.
    cbn [strmap tmap.KVPAIRS].
    rewrite get_helper_empty_list; [reflexivity | |].
    + pose proof (sizeof_pos _ Hne). unfold sizeof in *. lia.
    + apply Exists_exists. now exists b.
  - intros (Hne & Hall). unfold compiles.
    rewrite tmap_call_scan by assumption.
    destruct (first_binding key_ bindings) as [ARGS|] eqn:E; [|discriminate].
    apply first_binding_Some in E as (before & after & -> & _).
    rewrite Forall_app, Forall_cons in Hall. destruct Hall as (_ & HARGS & _).
    rewrite tstrlist_subscript_rev by exact HARGS.
    destruct (rev ARGS !! N.to_nat i_); discriminate.
Qed.

Lemma operator_call_one_empty_list :
  tmap.operator_call (strmap [("chicken", ["foo"]); ("beef", [])]%string) "chicken" 0
  = IllFormed.
Proof. reflexivity. Qed.

Lemma size_key_compiles_witness :
  tmap.size_key (tmap.tmap std_string_view (tstr "any") (tmap.KVPAIRS groupdefs)) "beef"
  = tmap.size_key groupdefs "beef".
Proof.
  apply (proj2 (size_key_compiles "beef")
           (tmap.tmap std_string_view (tstr "any") (tmap.KVPAIRS groupdefs))
           [("chicken", ["foo"; "bar"]); ("beef", ["baz"; "bat"])]%string);
    reflexivity.
Defined.

(** ** Bindings of one key, and the loop over a bound list *)

Lemma first_binding_app (key : string) (bindings later : list binding) :
  first_binding key (bindings ++ later)
  = match first_binding key bindings with
    | Some ARGS => Some ARGS
    | None => first_binding key later
    end.
Proof.
  induction bindings as [|b rest IH]; [reflexivity|].
  simpl. destruct (String.eqb b.1 key); [reflexivity | exact IH].
Qed.

(** Once a key is bound, the bindings declared after it change neither
    [size(key_)] nor [operator()] for that key, whatever their keys: a
    later binding of the same key is never reached.  [operator()] still
    needs every later list to hold a string. *)
Theorem later_bindings_unreachable
  (bindings later : list binding) (key_ : string_view) (ARGS : list string) :
  first_binding key_ bindings = Some ARGS ->
  tmap.size_key (strmap (bindings ++ later)) key_ = Returns (tstrlist.size ARGS) /\
  (forall i_ : size_t,
      Forall (fun b : binding => b.2 <> []) (bindings ++ later) ->
      tmap.operator_call (strmap (bindings ++ later)) key_ i_
      = tstrlist.operator_subscript ARGS i_).
Proof.
  intros Hfirst.
  assert (Hne : bindings ++ later <> []).
  { destruct bindings; [discriminate Hfirst | discriminate]. }
  split.
  - rewrite tmap_size_key_scan by exact Hne. now rewrite first_binding_app, Hfirst.
  - intros i_ Hall. rewrite tmap_call_scan by assumption.
    now rewrite first_binding_app, Hfirst.
Qed.

Lemma later_bindings_unreachable_witness :
  tmap.size_key (strmap [("a", ["x"]); ("a", ["y"; "z"])]%string) "a" = Returns 1 /\
  tmap.operator_call (strmap [("a", ["x"]); ("a", ["y"; "z"])]%string) "a" 0
  = tstrlist.operator_subscript ["x"]%string 0.
Proof.
  destruct (later_bindings_unreachable [("a", ["x"])]%string [("a", ["y"; "z"])]%string
              "a"%string ["x"]%string eq_refl) as [Hsize Hcall].
  split; [exact Hsize|].
  apply Hcall. repeat constructor; discriminate.
Defined.

Lemma fmap_lookup_seq {A : Type} (l : list A) :
  (fun i => l !! i) <$> seq 0 (length l) = Some <$> l.
Proof.
  apply list_eq. intros i. rewrite !list_lookup_fmap.
  destruct (Nat.lt_ge_cases i (length l)) as [Hi|Hi].
  - rewrite lookup_seq_lt by exact Hi. simpl.
    destruct (lookup_lt_is_Some_2 l i Hi) as [x Hx]. now rewrite Hx.
  - rewrite lookup_seq_ge by exact Hi.
    now rewrite (proj2 (lookup_ge_None l i)) by exact Hi.
Qed.

(** The loop of the header, [for (i = 0; i < m.size(key); ++i) m(key, i)]:
    on a map that [operator()] compiles on and for a key that is bound,
    [size(key)] returns the length of the bound list, no call in the loop
    throws, and the loop meets the strings of the list from the one
    declared last to the one declared first. *)
Theorem loop_over_bound_list
  (bindings : list binding) (key_ : string_view) (ARGS : list string) :
  Forall (fun b : binding => b.2 <> []) bindings ->
  first_binding key_ bindings = Some ARGS ->
  tmap.size_key (strmap bindings) key_ = Returns (sizeof ARGS) /\
  (fun i => tmap.operator_call (strmap bindings) key_ (N.of_nat i))
    <$> seq 0 (N.to_nat (sizeof ARGS))
  = Returns <$> rev ARGS.
Proof.
  intros Hall Hfirst.
  assert (Hne : bindings <> []) by (intros ->; discriminate Hfirst).
  assert (HARGS : ARGS <> []).
  { apply first_binding_Some in Hfirst as (before & after & -> & _).
    rewrite Forall_app, Forall_cons in Hall. now destruct Hall as (_ & ? & _). }
  split.
  - rewrite tmap_size_key_scan by exact Hne. now rewrite Hfirst.
  - unfold sizeof. rewrite Nat2N.id, <- (length_rev ARGS).
    rewrite (list_fmap_ext _ (fun i => match rev ARGS !! i with
                                       | Some s => Returns s
                                       | None => Throws (out_of_range "index error in get_helper")
                                       end) (seq 0 (length (rev ARGS)))).
    + change (fun i => match rev ARGS !! i with
                       | Some s => Returns s
                       | None => Throws (out_of_range "index error in get_helper")
                       end)
        with ((fun o : option string =>
                 match o with
                 | Some s => Returns s
                 | None => Throws (out_of_range "index error in get_helper")
                 end) ∘ (fun i => rev ARGS !! i)).
      rewrite list_fmap_compose, fmap_lookup_seq, <- list_fmap_compose. reflexivity.
    + intros _ i _. rewrite tmap_call_scan, Hfirst by assumption.
      rewrite tstrlist_subscript_rev by exact HARGS. now rewrite Nat2N.id.
Qed.

Lemma loop_over_bound_list_witness :
  tmap.size_key groupdefs "beef" = Returns 2 /\
  [tmap.operator_call groupdefs "beef" 0; tmap.operator_call groupdefs "beef" 1]
  = [Returns "bat"; Returns "baz"]%string.
Proof.
  apply (loop_over_bound_list
           [("chicken", ["foo"; "bar"]); ("beef", ["baz"; "bat"])]%string
           "beef"%string ["baz"; "bat"]%string).
  - repeat constructor; discriminate.
  - reflexivity.
Defined.

(** ** [index_helper], handed the bindings alone *)

Lemma type_eqb_refl (a : type) : type_eqb a a = true.
Proof.
  induction a as [| s | l | A IHA B IHB]; simpl.
  - reflexivity.
  - apply String.eqb_refl.
  - now apply bool_decide_eq_true.
  - now rewrite IHA, IHB.
Qed.

Lemma index_helper_scan (V : type) (all pack : list string) :
  forall N : size_t,
    length pack = S (N.to_nat N) ->
    N < sizeof all ->
    exists run,
      tmap.index_helper (constant_map V all) N ((fun k => std_pair (tstr k) V) <$> pack)
      = Some run /\
      forall key_, run key_ =
        if bool_decide (key_ ∈ pack) then Returns V
        else Throws (out_of_range "couldn't find key in tmap in index_helper").
Proof.
  induction pack as [|k REST IH]; intros N Hlen HN; simpl in Hlen; [lia|].
  cbn [fmap list_fmap tmap.index_helper].
  replace (sizeof (tmap.KVPAIRS (constant_map V all))) with (sizeof all)
    by (unfold constant_map, sizeof; simpl; now rewrite length_fmap).
  destruct (N.ltb_spec N (sizeof all)) as [_|]; [|lia].
  cbn [constant_map tmap.KEY tmap.VALUE tmap.equality_comparable tmap.first_call
         tmap.second_value tmap.second mbind option_bind].
  rewrite type_eqb_refl.
  destruct (N.eqb_spec N 0) as [->|HN0].
  - destruct REST; simpl in Hlen; [|lia].
    eexists; split; [reflexivity|]. intros key_. simpl.
    destruct (String.eqb_spec k key_) as [->|Hk].
    + rewrite bool_decide_true by apply list_elem_of_here. reflexivity.
    + rewrite bool_decide_false; [reflexivity|].
      intros H. apply list_elem_of_singleton in H. congruence.
  - destruct (IH (N - 1)) as (rest & Hrest & Hscan); [lia | lia |].
    cbn [fmap] in Hrest. rewrite Hrest.
    eexists; split; [reflexivity|]. intros key_. simpl.
    destruct (String.eqb_spec k key_) as [->|Hk].
    + rewrite bool_decide_true by apply list_elem_of_here. reflexivity.
    + rewrite Hscan.
      rewrite (bool_decide_ext (key_ ∈ k :: REST) (key_ ∈ REST)); [reflexivity|].
      rewrite elem_of_cons. intuition congruence.
Qed.

(** [index_helper<sizeof...(KVPAIRS) - 1, KVPAIRS...>], the call that
    [size(key_)] and [operator()] make of their helpers: on a map whose
    bindings all hold a [VALUE], it returns that value for a key that is
    bound and throws [std::out_of_range] for a key that is not. *)
Theorem index_helper_of_bindings (V : type) (keys : list string) :
  keys <> [] ->
  exists run,
    tmap.index_helper (constant_map V keys)
      (size_t_sub (sizeof (tmap.KVPAIRS (constant_map V keys))) 1)
      (tmap.KVPAIRS (constant_map V keys)) = Some run /\
    forall key_,
      run key_ =
        if bool_decide (key_ ∈ keys) then Returns V
        else Throws (out_of_range "couldn't find key in tmap in index_helper").
Proof.
  intros Hne. pose proof (sizeof_pos _ Hne) as Hpos.
  replace (sizeof (tmap.KVPAIRS (constant_map V keys))) with (sizeof keys)
    by (unfold constant_map, sizeof; simpl; now rewrite length_fmap).
  rewrite size_t_sub_pos by exact Hpos.
  apply index_helper_scan; [unfold sizeof in *; lia | lia].
Qed.

Lemma index_helper_of_bindings_witness :
  exists run,
    tmap.index_helper plain_map 0 (tmap.KVPAIRS plain_map) = Some run /\
    forall key_,
      run key_ =
        if bool_decide (key_ ∈ ["a"]%string) then Returns (tstrlist_t ["foo"]%string)
        else Throws (out_of_range "couldn't find key in tmap in index_helper").
Proof.
  apply (index_helper_of_bindings (tstrlist_t ["foo"]%string) ["a"]%string). discriminate.
Defined.


(** * [calc3::update] *)

Lemma occurrences_app (s : string) (l l' : list string) :
  occurrences s (l ++ l') = occurrences s l + occurrences s l'.
Proof. induction l as [|x l IH]; simpl; [reflexivity | rewrite IH; lia]. Qed.

Lemma occurrences_rev (s : string) (l : list string) :
  occurrences s (rev l) = occurrences s l.
Proof.
  induction l as [|x l IH]; simpl; [reflexivity|].
  rewrite occurrences_app, IH. simpl. lia.
Qed.

Lemma take_drop_S {A : Type} (l : list A) (i n : nat) (x : A) :
  l !! i = Some x -> take (S n) (drop i l) = x :: take n (drop (S i) l).
Proof. intros H. now rewrite (drop_S l x i H). Qed.

Lemma for_loop_step {S : Type} (n : nat) (i : size_t) (body : size_t -> stmt S unit)
    (s s' : S) :
  body i s = (Returns tt, s') ->
  for_loop (Datatypes.S n) i body s = for_loop n (i + 1) body s'.
Proof.
  intros H. cbn [for_loop]. unfold mbind, stmt_mbind, stmt_bind. now rewrite H.
Qed.

Lemma for_loop_raise {S : Type} (n : nat) (i : size_t) (body : size_t -> stmt S unit)
    (s s' : S) (e : exception) :
  body i s = (Throws e, s') ->
  for_loop (Datatypes.S n) i body s = (Throws e, s').
Proof.
  intros H. cbn [for_loop]. unfold mbind, stmt_mbind, stmt_bind. now rewrite H.
Qed.

Lemma bind_returns {S A B : Type} (c : stmt S A) (k : A -> stmt S B) (s s' : S) (a : A) :
  c s = (Returns a, s') -> (c ≫= k) s = k a s'.
Proof. intros H. unfold mbind, stmt_mbind, stmt_bind. now rewrite H. Qed.

Lemma bind_raise {S A B : Type} (c : stmt S A) (k : A -> stmt S B) (s s' : S)
    (e : exception) :
  c s = (Throws e, s') -> (c ≫= k) s = (Throws e, s').
Proof. intros H. unfold mbind, stmt_mbind, stmt_bind. now rewrite H. Qed.

Section calc3_facts.
Context {double : Type}.
Variable of_integer : N -> double.
Variables add mul : double -> double -> double.
Variable GROUPS : list string.
Variable bindings : list binding.
Variable GROUPCOEFS : list double.
Hypothesis bindings_compile : Forall (fun b : binding => b.2 <> []) bindings.

Local Abbreviation frame := (@calc3.frame double).
Local Abbreviation Frame := (@calc3.Frame double).

(** The loop over [ni] counts the "baz" of the slice of the list it runs
    over, and leaves everything else as it is. *)
Lemma calc3_count_loop (group : string) (ARGS : list string) :
  first_binding group bindings = Some ARGS ->
  forall (n i : nat) (f : frame),
    (i + n <= length ARGS)%nat ->
    for_loop n (N.of_nat i)
      (fun ni =>
         name ← call (tmap.operator_call (strmap bindings) group ni);
         if String.eqb name "baz"
         then modify (fun f => Frame (calc3.sum f) (calc3.ctr f) (calc3.tctr f + 1)
                                 (calc3._values f))
         else mret tt) f
    = (Returns tt,
       Frame (calc3.sum f) (calc3.ctr f)
         (calc3.tctr f + occurrences "baz" (take n (drop i (rev ARGS))))
         (calc3._values f)).
Proof.
  intros Hfirst.
  assert (Hne : bindings <> []) by (intros E; rewrite E in Hfirst; discriminate Hfirst).
  assert (HARGS : ARGS <> []).
  { apply first_binding_Some in Hfirst as (before & after & E & _).
    pose proof bindings_compile as Hall. rewrite E, Forall_app, Forall_cons in Hall.
    now destruct Hall as (_ & ? & _). }
  induction n as [|n IH]; intros i f Hlen.
  - simpl. rewrite N.add_0_r. now destruct f.
  - destruct (lookup_lt_is_Some_2 (rev ARGS) i) as [s Hs]; [rewrite length_rev; lia|].
    rewrite (take_drop_S _ _ _ _ Hs).
    erewrite for_loop_step.
    2:{ unfold mbind, stmt_mbind, stmt_bind, call.
        rewrite tmap_call_scan, Hfirst by assumption.
        rewrite tstrlist_subscript_rev, Nat2N.id, Hs by exact HARGS.
        instantiate (1 := Frame (calc3.sum f) (calc3.ctr f)
                            (calc3.tctr f + (if String.eqb s "baz" then 1 else 0))
                            (calc3._values f)).
        destruct (String.eqb s "baz"); cbn.
        - reflexivity.
        - rewrite N.add_0_r. now destruct f. }
    replace (N.of_nat i + 1) with (N.of_nat (S i)) by lia.
    rewrite IH by lia. cbn [calc3.sum calc3.ctr calc3.tctr calc3._values occurrences].
    do 2 f_equal. lia.
Qed.
(** The loop over [j] adds the coefficients of the slice it runs over,
    each times [tctr], and stores every sum it reaches in the next slot of
    [_values]. *)
Lemma calc3_coef_loop :
  forall (n j : nat) (f : frame),
    (j + n <= length GROUPCOEFS)%nat ->
    (N.to_nat (calc3.ctr f) + n <= length (calc3._values f))%nat ->
    exists values',
      for_loop n (N.of_nat j)
        (fun j =>
           coef ← call (tlist.operator_subscript GROUPCOEFS j);
           _ ← modify (fun f => Frame (add (calc3.sum f)
                                          (mul (of_integer (calc3.tctr f)) coef))
                                  (calc3.ctr f) (calc3.tctr f) (calc3._values f));
           calc3.store_sum) f
      = (Returns tt,
         Frame (fold_left (fun s c => add s (mul (of_integer (calc3.tctr f)) c))
                  (take n (drop j GROUPCOEFS)) (calc3.sum f))
           (calc3.ctr f + N.of_nat n) (calc3.tctr f) values') /\
      length values' = length (calc3._values f) /\
      (n = 0%nat -> values' = calc3._values f) /\
      ((0 < n)%nat ->
       values' !! (N.to_nat (calc3.ctr f) + n - 1)%nat
       = Some (fold_left (fun s c => add s (mul (of_integer (calc3.tctr f)) c))
                 (take n (drop j GROUPCOEFS)) (calc3.sum f))).
Proof.
  induction n as [|n IH]; intros j f Hj Hctr.
  - exists (calc3._values f). simpl. rewrite N.add_0_r.
    repeat split; [now destruct f | lia].
  - destruct (lookup_lt_is_Some_2 GROUPCOEFS j) as [c Hc]; [lia|].
    rewrite (take_drop_S _ _ _ _ Hc). cbn [fold_left].
    set (f1 := Frame (add (calc3.sum f) (mul (of_integer (calc3.tctr f)) c))
                 (calc3.ctr f + 1) (calc3.tctr f)
                 (<[N.to_nat (calc3.ctr f) := add (calc3.sum f)
                                                (mul (of_integer (calc3.tctr f)) c)]>
                    (calc3._values f))).
    assert (Hbody :
               for_loop (S n) (N.of_nat j)
                 (fun j =>
                    coef ← call (tlist.operator_subscript GROUPCOEFS j);
                    _ ← modify (fun f => Frame (add (calc3.sum f)
                                                   (mul (of_integer (calc3.tctr f)) coef))
                                           (calc3.ctr f) (calc3.tctr f) (calc3._values f));
                    calc3.store_sum) f
               = for_loop n (N.of_nat (S j))
                   (fun j =>
                      coef ← call (tlist.operator_subscript GROUPCOEFS j);
                      _ ← modify (fun f => Frame (add (calc3.sum f)
                                                     (mul (of_integer (calc3.tctr f)) coef))
                                             (calc3.ctr f) (calc3.tctr f) (calc3._values f));
                      calc3.store_sum) f1).
    { erewrite for_loop_step.
      - now replace (N.of_nat j + 1) with (N.of_nat (S j)) by lia.
      - erewrite bind_returns
          by (unfold call; now rewrite (tlist_subscript_in_range GROUPCOEFS (N.of_nat j) c)
                by now rewrite Nat2N.id).
        erewrite bind_returns by reflexivity.
        unfold calc3.store_sum. cbn [calc3.sum calc3.ctr calc3.tctr calc3._values].
        destruct (N.ltb_spec (calc3.ctr f) (N.of_nat (length (calc3._values f))));
          [reflexivity | lia]. }
    rewrite Hbody.
    destruct (IH (S j) f1) as (values' & Hrun & Hlen & Hzero & Hlast).
    + lia.
    + subst f1. cbn [calc3.ctr calc3._values]. rewrite length_insert. lia.
    + subst f1. cbn [calc3.sum calc3.ctr calc3.tctr calc3._values] in *.
      rewrite length_insert in Hlen.
      exists values'. repeat split.
      * rewrite Hrun. do 2 f_equal. lia.
      * exact Hlen.
      * discriminate.
      * intros _. destruct n as [|n'].
        -- rewrite (Hzero eq_refl). simpl.
           replace (N.to_nat (calc3.ctr f) + 1 - 1)%nat with (N.to_nat (calc3.ctr f)) by lia.
           apply list_lookup_insert_eq. lia.
        -- rewrite <- Hlast by lia. f_equal. lia.
Qed.
Hypothesis GROUPS_compile : GROUPS <> [].
Hypothesis bindings_nonempty : bindings <> [].

(** The body of the loop over [i]. *)
Local Abbreviation group_body :=
  (fun i =>
     _ ← modify (fun f => Frame (calc3.sum f) (calc3.ctr f) 0 (calc3._values f));
     group ← call (tstrlist.operator_subscript GROUPS i);
     groupsize ← call (tmap.size_key (strmap bindings) group);
     _ ← for_loop (N.to_nat groupsize) 0 (fun ni =>
           name ← call (tmap.operator_call (strmap bindings) group ni);
           if String.eqb name "baz"
           then modify (fun f => Frame (calc3.sum f) (calc3.ctr f)
                                   (calc3.tctr f + 1) (calc3._values f))
           else mret tt);
     for_loop (N.to_nat (tlist.size GROUPCOEFS)) 0 (fun j =>
           coef ← call (tlist.operator_subscript GROUPCOEFS j);
           _ ← modify (fun f => Frame (add (calc3.sum f)
                                          (mul (of_integer (calc3.tctr f)) coef))
                                  (calc3.ctr f) (calc3.tctr f) (calc3._values f));
           calc3.store_sum)).

(** The loop over [i] meets the groups from the one declared last, and
    keeps [ctr] at the number of sums stored and the last of them in the
    slot before [ctr]. *)
Lemma calc3_group_loop :
  forall (n i : nat) (f : frame),
    (i + n = length GROUPS)%nat ->
    calc3.ctr f = N.of_nat (i * length GROUPCOEFS) ->
    length (calc3._values f) = (length GROUPS * length GROUPCOEFS)%nat ->
    (0 < calc3.ctr f ->
     calc3._values f !! (N.to_nat (calc3.ctr f) - 1)%nat = Some (calc3.sum f)) ->
    match sum_of_groups of_integer add mul bindings GROUPCOEFS
            (take n (drop i (rev GROUPS))) (calc3.sum f) with
    | Returns total =>
        exists t values',
          for_loop n (N.of_nat i) group_body f
          = (Returns tt,
             Frame total (N.of_nat (length GROUPS * length GROUPCOEFS)) t values') /\
          length values' = (length GROUPS * length GROUPCOEFS)%nat /\
          ((0 < length GROUPS * length GROUPCOEFS)%nat ->
           values' !! (length GROUPS * length GROUPCOEFS - 1)%nat = Some total)
    | Throws e =>
        exists f',
          for_loop n (N.of_nat i) group_body f
          = (Throws e, f')
    | _ => False
    end.
Proof.
  induction n as [|n IH]; intros i f Hi Hctr Hlen Hlast.
  - simpl. exists (calc3.tctr f), (calc3._values f).
    assert (i = length GROUPS) as -> by lia.
    repeat split.
    + rewrite <- Hctr. now destruct f.
    + exact Hlen.
    + intros Hpos. rewrite <- Hlast by lia. f_equal. lia.
  - destruct (lookup_lt_is_Some_2 (rev GROUPS) i) as [g Hg]; [rewrite length_rev; lia|].
    rewrite (take_drop_S _ _ _ _ Hg). cbn [sum_of_groups].
    assert (Hgroup : tstrlist.operator_subscript GROUPS (N.of_nat i) = Returns g).
    { rewrite tstrlist_subscript_rev, Nat2N.id, Hg by exact GROUPS_compile. reflexivity. }
    pose proof (tmap_size_key_scan bindings g bindings_nonempty) as Hsize.
    destruct (first_binding g bindings) as [ARGS|] eqn:Hfirst.
    + set (f0 := Frame (calc3.sum f) (calc3.ctr f) 0 (calc3._values f)).
      pose proof (calc3_count_loop g ARGS Hfirst (length ARGS) 0 f0) as Hcount.
      rewrite drop_0, take_ge, occurrences_rev, N.add_0_l in Hcount
        by (rewrite length_rev; lia).
      specialize (Hcount ltac:(lia)). change (N.of_nat 0) with 0 in Hcount.
      set (f1 := Frame (calc3.sum f) (calc3.ctr f) (occurrences "baz" ARGS)
                   (calc3._values f)) in *.
      destruct (calc3_coef_loop (length GROUPCOEFS) 0 f1) as (values' & Hcoef & Hlen' & _ & Hlast').
      { lia. }
      { subst f1. cbn [calc3.ctr calc3._values]. rewrite Hctr, Hlen. nia. }
      rewrite drop_0, take_ge in Hcoef, Hlast' by lia.
      change (N.of_nat 0) with 0 in Hcoef.
      subst f1. cbn [calc3.sum calc3.ctr calc3.tctr calc3._values] in *.
      set (sum' := fold_left (fun s c => add s (mul (of_integer (occurrences "baz" ARGS)) c))
                     GROUPCOEFS (calc3.sum f)) in *.
      set (f2 := Frame sum' (calc3.ctr f + N.of_nat (length GROUPCOEFS))
                   (occurrences "baz" ARGS) values') in *.
      specialize (IH (S i) f2). cbn [calc3.sum calc3.ctr calc3._values f2] in IH.
      assert (Hstep : forall n',
                 for_loop (S n') (N.of_nat i) group_body f
                 = for_loop n' (N.of_nat (S i)) group_body f2).
      { intros n'. erewrite for_loop_step.
        - now replace (N.of_nat i + 1) with (N.of_nat (S i)) by lia.
        - erewrite bind_returns by reflexivity.
          erewrite bind_returns by (unfold call; now rewrite Hgroup).
          erewrite bind_returns by (unfold call; now rewrite Hsize).
          unfold tstrlist.size, tlist.size, sizeof. rewrite !Nat2N.id.
          erewrite bind_returns by exact Hcount.
          exact Hcoef. }
      rewrite Hstep.
      apply IH.
      * lia.
      * rewrite Hctr. lia.
      * rewrite Hlen'. exact Hlen.
      * intros Hpos. destruct (length GROUPCOEFS) as [|C] eqn:EC.
        -- rewrite Hctr in Hpos. lia.
        -- rewrite <- Hlast' by lia. f_equal. lia.
    + eexists. erewrite for_loop_raise; [reflexivity|].
      erewrite bind_returns by reflexivity.
      erewrite bind_returns by (unfold call; now rewrite Hgroup).
      erewrite bind_raise by (unfold call; now rewrite Hsize).
      reflexivity.
Qed.
Lemma calc3_calls_compile :
  ill_formed (tstrlist.operator_subscript GROUPS 0)
  || ill_formed (tmap.size_key (strmap bindings) "")
  || ill_formed (tmap.operator_call (strmap bindings) "" 0) = false.
Proof.
  rewrite tstrlist_subscript_rev, tmap_size_key_scan, tmap_call_scan by assumption.
  destruct (rev GROUPS !! N.to_nat 0); simpl;
    (destruct (first_binding "" bindings) as [ARGS|] eqn:E; [|reflexivity]);
    apply first_binding_Some in E as (before & after & E & _);
    pose proof bindings_compile as Hall;
    rewrite E, Forall_app, Forall_cons in Hall; destruct Hall as (_ & HARGS & _);
    rewrite tstrlist_subscript_rev by exact HARGS;
    destruct (rev ARGS !! N.to_nat 0); reflexivity.
Qed.

(** [update()] on an object whose [_values] has the size its type gives
    it: the sum of the groups taken from the one declared last, read back
    from the last slot of [_values], which no slot is when there is no
    coefficient. *)
Lemma calc3_update_outcome (values : list double) :
  length values = (length GROUPS * length GROUPCOEFS)%nat ->
  fst (calc3.update of_integer add mul GROUPS (strmap bindings) GROUPCOEFS values)
  = match sum_of_groups of_integer add mul bindings GROUPCOEFS (rev GROUPS)
            (of_integer 0) with
    | Returns total =>
        match GROUPCOEFS with
        | [] => Undefined
        | _ :: _ => Returns total
        end
    | raised => raised
    end.
Proof.
  intros Hlen. unfold calc3.update. rewrite calc3_calls_compile.
  unfold calc3.update_body.
  pose proof (calc3_group_loop (N.to_nat (tstrlist.size GROUPS)) 0
                (Frame (of_integer 0) 0 0 values)) as Hloop.
  cbn [calc3.sum calc3.ctr calc3._values] in Hloop.
  rewrite drop_0, take_ge in Hloop
    by (rewrite length_rev; unfold tstrlist.size, sizeof; lia).
  change (N.of_nat 0) with 0 in Hloop.
  specialize (Hloop ltac:(unfold tstrlist.size, sizeof; lia) ltac:(reflexivity) Hlen
                      ltac:(intros H; discriminate H)).
  destruct (sum_of_groups of_integer add mul bindings GROUPCOEFS (rev GROUPS) (of_integer 0))
    as [total|e| |]; try contradiction.
  - destruct Hloop as (t & values' & Hrun & Hlen' & Hlast).
    erewrite bind_returns by exact Hrun.
    unfold calc3.load_last. cbn [calc3.ctr calc3._values].
    destruct GROUPCOEFS as [|c cs] eqn:EC.
    + rewrite Hlen', Nat.mul_0_r. reflexivity.
    + assert (Hpos : (0 < length GROUPS * length (c :: cs))%nat).
      { destruct GROUPS; [contradiction | simpl; lia]. }
      rewrite size_t_sub_pos by lia. rewrite Hlen'.
      destruct (N.ltb_spec (N.of_nat (length GROUPS * length (c :: cs)) - 1)
                  (N.of_nat (length GROUPS * length (c :: cs)))); [|lia].
      replace (N.to_nat (N.of_nat (length GROUPS * length (c :: cs)) - 1))
        with (length GROUPS * length (c :: cs) - 1)%nat by lia.
      now rewrite (Hlast Hpos).
  - destruct Hloop as (f' & Hrun). erewrite bind_raise by exact Hrun. reflexivity.
Qed.
End calc3_facts.

Lemma elem_of_rev {A : Type} (x : A) (l : list A) : x ∈ rev l <-> x ∈ l.
Proof. rewrite !list_elem_of_In. symmetry. apply in_rev. Qed.

(** [sum_of_groups] reaches its end when every group is bound, and stops
    with the exception of [size_helper] when one is not. *)
Lemma sum_of_groups_cases {double : Type} (of_integer : N -> double)
    (add mul : double -> double -> double)
    (bindings : list binding) (GROUPCOEFS : list double) (groups : list string) :
  forall sum : double,
    (Forall (fun group => first_binding group bindings <> None) groups /\
     sum_of_groups of_integer add mul bindings GROUPCOEFS groups sum
     = Returns
         (fold_left
            (fun sum group =>
               fold_left
                 (fun sum coef =>
                    add sum (mul (of_integer
                                    (occurrences "baz"
                                       (default [] (first_binding group bindings))))
                               coef))
                 GROUPCOEFS sum)
            groups sum)) \/
    (Exists (fun group => first_binding group bindings = None) groups /\
     sum_of_groups of_integer add mul bindings GROUPCOEFS groups sum
     = Throws (out_of_range "couldn't find key in tmap in size_helper")).
Proof.
  induction groups as [|g groups IH]; intros sum.
  - left. split; [constructor | reflexivity].
  - cbn [sum_of_groups fold_left].
    destruct (first_binding g bindings) as [ARGS|] eqn:E.
    + destruct (IH (fold_left
                      (fun sum coef => add sum (mul (of_integer (occurrences "baz" ARGS)) coef))
                      GROUPCOEFS sum)) as [[Hall Hsum]|[Hex Hsum]].
      * left. split; [constructor; [congruence | exact Hall] | exact Hsum].
      * right. split; [now apply Exists_cons_tl | exact Hsum].
    + right. split; [now apply Exists_cons_hd | reflexivity].
Qed.


(** [calc3::update], when every group is bound in the map: it returns the
    sum, over the groups from the one declared last to the one declared
    first and for each over the coefficients in declaration order, of the
    coefficient times the number of "baz" in the list bound to the group,
    whatever the order of the strings in that list and whatever [_values]
    held before.  With no coefficient it reads [_values[ctr-1]] at
    [ctr = 0], outside the array. *)
Theorem calc3_update_sums {double : Type} (of_integer : N -> double)
    (add mul : double -> double -> double)
    (GROUPS : list string) (bindings : list binding) (GROUPCOEFS values : list double) :
  Forall (fun b : binding => b.2 <> []) bindings ->
  GROUPS <> [] ->
  length values = (length GROUPS * length GROUPCOEFS)%nat ->
  Forall (fun group => first_binding group bindings <> None) GROUPS ->
  (GROUPCOEFS <> [] ->
   fst (calc3.update of_integer add mul GROUPS (strmap bindings) GROUPCOEFS values)
   = Returns
       (fold_left
          (fun sum group =>
             fold_left
               (fun sum coef =>
                  add sum (mul (of_integer
                                  (occurrences "baz"
                                     (default [] (first_binding group bindings))))
                             coef))
               GROUPCOEFS sum)
          (rev GROUPS) (of_integer 0))) /\
  (GROUPCOEFS = [] ->
   fst (calc3.update of_integer add mul GROUPS (strmap bindings) GROUPCOEFS values)
   = Undefined).
Proof.
  intros Hall HG Hlen Hbound.
  assert (Hne : bindings <> []).
  { destruct GROUPS as [|g gs]; [contradiction|]. inversion Hbound; subst.
    intros ->. contradiction. }
  rewrite (calc3_update_outcome of_integer add mul GROUPS bindings GROUPCOEFS Hall HG Hne
             values Hlen).
  destruct (sum_of_groups_cases of_integer add mul bindings GROUPCOEFS (rev GROUPS)
              (of_integer 0)) as [[_ ->]|[Hex _]].
  - split; intros HC; destruct GROUPCOEFS; (reflexivity || congruence).
  - exfalso. apply Exists_exists in Hex as (g & Hg & Hnone).
    apply (proj1 (elem_of_rev g GROUPS)) in Hg.
    rewrite Forall_forall in Hbound. now apply (Hbound g Hg).
Qed.

Lemma calc3_update_sums_witness :
  fst (calc3.update Z.of_N Z.add Z.mul groups groupdefs [2; 1]%Z [0; 0; 0; 0]%Z)
  = Returns 3%Z.
Proof.
  apply (calc3_update_sums Z.of_N Z.add Z.mul groups
           [("chicken", ["foo"; "bar"]); ("beef", ["baz"; "bat"])]%string
           [2; 1]%Z [0; 0; 0; 0]%Z).
  - repeat constructor; discriminate.
  - discriminate.
  - reflexivity.
  - repeat constructor; discriminate.
  - discriminate.
Defined.

(** [calc3::update] throws exactly when a group is bound to nothing in the
    map, and then what [size(key_)] throws; the order of the groups plays
    no part in it. *)
Theorem calc3_update_throws {double : Type} (of_integer : N -> double)
    (add mul : double -> double -> double)
    (GROUPS : list string) (bindings : list binding) (GROUPCOEFS values : list double) :
  Forall (fun b : binding => b.2 <> []) bindings ->
  GROUPS <> [] ->
  bindings <> [] ->
  length values = (length GROUPS * length GROUPCOEFS)%nat ->
  ((exists e,
       fst (calc3.update of_integer add mul GROUPS (strmap bindings) GROUPCOEFS values)
       = Throws e) <->
   Exists (fun group => first_binding group bindings = None) GROUPS) /\
  (forall e,
      fst (calc3.update of_integer add mul GROUPS (strmap bindings) GROUPCOEFS values)
      = Throws e ->
      e = out_of_range "couldn't find key in tmap in size_helper").
Proof.
  intros Hall HG Hne Hlen.
  rewrite (calc3_update_outcome of_integer add mul GROUPS bindings GROUPCOEFS Hall HG Hne
             values Hlen).
  destruct (sum_of_groups_cases of_integer add mul bindings GROUPCOEFS (rev GROUPS)
              (of_integer 0)) as [[Hbound ->]|[Hex ->]].
  - split.
    + split.
      * intros [e H]. destruct GROUPCOEFS; discriminate H.
      * intros Hex. exfalso. apply Exists_exists in Hex as (g & Hg & Hnone).
        rewrite Forall_forall in Hbound.
        apply (Hbound g); [exact (proj2 (elem_of_rev g GROUPS) Hg) | exact Hnone].
    + intros e H. destruct GROUPCOEFS; discriminate H.
  - split.
    + split; [|eauto]. intros _.
      apply Exists_exists in Hex as (g & Hg & Hnone). apply Exists_exists.
      exists g. split; [exact (proj1 (elem_of_rev g GROUPS) Hg) | exact Hnone].
    + now intros e [= <-].
Qed.

Lemma calc3_update_throws_witness :
  exists e,
    fst (calc3.update Z.of_N Z.add Z.mul ["pork"; "beef"]%string groupdefs
           [2; 1]%Z [0; 0; 0; 0]%Z)
    = Throws e.
Proof.
  apply (proj1 (calc3_update_throws Z.of_N Z.add Z.mul ["pork"; "beef"]%string
                  [("chicken", ["foo"; "bar"]); ("beef", ["baz"; "bat"])]%string
                  [2; 1]%Z [0; 0; 0; 0]%Z
                  ltac:(repeat constructor; discriminate) ltac:(discriminate)
                  ltac:(discriminate) eq_refl)).
  apply Exists_cons_hd. reflexivity.
Defined.

(** * [calc2::update] *)

Section calc2_facts.
Context {double : Type}.
Variable of_integer : N -> double.
Variables add mul : double -> double -> double.
Variable COEFS : list double.
Variable IDS : list N.

Local Abbreviation frame := (@calc2.frame double).
Local Abbreviation Frame := (@calc2.Frame double).

(** The loop over [j] adds the products of one coefficient with the ids of
    the slice it runs over, and stores every sum it reaches in the next
    slot of [_values]. *)
Lemma calc2_ids_loop (i : nat) (c : double) :
  COEFS !! i = Some c ->
  forall (n j : nat) (f : frame),
    (j + n <= length IDS)%nat ->
    (N.to_nat (calc2.ctr f) + n <= length (calc2._values f))%nat ->
    exists values',
      for_loop n (N.of_nat j)
        (fun j =>
           coef ← call (tlist.operator_subscript COEFS (N.of_nat i));
           id ← call (tlist.operator_subscript IDS j);
           _ ← modify (fun f => Frame (add (calc2.sum f) (mul coef (of_integer id)))
                                  (calc2.ctr f) (calc2._values f));
           calc2.store_sum) f
      = (Returns tt,
         Frame (fold_left (fun s id => add s (mul c (of_integer id)))
                  (take n (drop j IDS)) (calc2.sum f))
           (calc2.ctr f + N.of_nat n) values') /\
      length values' = length (calc2._values f) /\
      (n = 0%nat -> values' = calc2._values f) /\
      ((0 < n)%nat ->
       values' !! (N.to_nat (calc2.ctr f) + n - 1)%nat
       = Some (fold_left (fun s id => add s (mul c (of_integer id)))
                 (take n (drop j IDS)) (calc2.sum f))).
Proof.
  intros Hc. induction n as [|n IH]; intros j f Hj Hctr.
  - exists (calc2._values f). simpl. rewrite N.add_0_r.
    repeat split; [now destruct f | lia].
  - destruct (lookup_lt_is_Some_2 IDS j) as [id Hid]; [lia|].
    rewrite (take_drop_S _ _ _ _ Hid). cbn [fold_left].
    set (f1 := Frame (add (calc2.sum f) (mul c (of_integer id))) (calc2.ctr f + 1)
                 (<[N.to_nat (calc2.ctr f) := add (calc2.sum f) (mul c (of_integer id))]>
                    (calc2._values f))).
    destruct (IH (S j) f1) as (values' & Hrun & Hlen & Hzero & Hlast).
    { lia. }
    { subst f1. cbn [calc2.ctr calc2._values]. rewrite length_insert. lia. }
    subst f1. cbn [calc2.sum calc2.ctr calc2._values] in *.
    rewrite length_insert in Hlen.
    exists values'. repeat split.
    + erewrite for_loop_step.
      * replace (N.of_nat j + 1) with (N.of_nat (S j)) by lia.
        rewrite Hrun. do 2 f_equal. lia.
      * erewrite bind_returns
          by (unfold call; now rewrite (tlist_subscript_in_range COEFS (N.of_nat i) c)
                by now rewrite Nat2N.id).
        erewrite bind_returns
          by (unfold call; now rewrite (tlist_subscript_in_range IDS (N.of_nat j) id)
                by now rewrite Nat2N.id).
        erewrite bind_returns by reflexivity.
        unfold calc2.store_sum. cbn [calc2.sum calc2.ctr calc2._values].
        destruct (N.ltb_spec (calc2.ctr f) (N.of_nat (length (calc2._values f))));
          [reflexivity | lia].
    + exact Hlen.
    + discriminate.
    + intros _. destruct n as [|n'].
      * rewrite (Hzero eq_refl). simpl.
        replace (N.to_nat (calc2.ctr f) + 1 - 1)%nat with (N.to_nat (calc2.ctr f)) by lia.
        apply list_lookup_insert_eq. lia.
      * rewrite <- Hlast by lia. f_equal. lia.
Qed.

(** The loop over [i] takes the coefficients in declaration order, and
    keeps [ctr] at the number of sums stored and the last of them in the
    slot before [ctr]. *)
Lemma calc2_coefs_loop :
  forall (n i : nat) (f : frame),
    (i + n = length COEFS)%nat ->
    calc2.ctr f = N.of_nat (i * length IDS) ->
    length (calc2._values f) = (length COEFS * length IDS)%nat ->
    (0 < calc2.ctr f ->
     calc2._values f !! (N.to_nat (calc2.ctr f) - 1)%nat = Some (calc2.sum f)) ->
    exists values',
      for_loop n (N.of_nat i)
        (fun i =>
           for_loop (N.to_nat (tlist.size IDS)) 0 (fun j =>
             coef ← call (tlist.operator_subscript COEFS i);
             id ← call (tlist.operator_subscript IDS j);
             _ ← modify (fun f => Frame (add (calc2.sum f) (mul coef (of_integer id)))
                                    (calc2.ctr f) (calc2._values f));
             calc2.store_sum)) f
      = (Returns tt,
         Frame (fold_left
                  (fun s c => fold_left (fun s id => add s (mul c (of_integer id))) IDS s)
                  (take n (drop i COEFS)) (calc2.sum f))
           (N.of_nat (length COEFS * length IDS)) values') /\
      length values' = (length COEFS * length IDS)%nat /\
      ((0 < length COEFS * length IDS)%nat ->
       values' !! (length COEFS * length IDS - 1)%nat
       = Some (fold_left
                 (fun s c => fold_left (fun s id => add s (mul c (of_integer id))) IDS s)
                 (take n (drop i COEFS)) (calc2.sum f))).
Proof.
  induction n as [|n IH]; intros i f Hi Hctr Hlen Hlast.
  - simpl. exists (calc2._values f).
    assert (i = length COEFS) as -> by lia.
    repeat split.
    + rewrite <- Hctr. now destruct f.
    + exact Hlen.
    + intros Hpos. rewrite <- Hlast by lia. f_equal. lia.
  - destruct (lookup_lt_is_Some_2 COEFS i) as [c Hc]; [lia|].
    rewrite (take_drop_S _ _ _ _ Hc). cbn [fold_left].
    destruct (calc2_ids_loop i c Hc (length IDS) 0 f) as (values1 & Hids & Hlen1 & _ & Hlast1).
    { lia. }
    { rewrite Hctr, Hlen. nia. }
    rewrite drop_0, take_ge in Hids, Hlast1 by lia.
    change (N.of_nat 0) with 0 in Hids.
    set (sum1 := fold_left (fun s id => add s (mul c (of_integer id))) IDS (calc2.sum f)) in *.
    set (f1 := Frame sum1 (calc2.ctr f + N.of_nat (length IDS)) values1) in *.
    destruct (IH (S i) f1) as (values' & Hrun & Hlen' & Hlast').
    + lia.
    + subst f1. cbn [calc2.ctr]. rewrite Hctr. lia.
    + subst f1. cbn [calc2._values]. now rewrite Hlen1.
    + subst f1. cbn [calc2.sum calc2.ctr calc2._values]. intros Hpos.
      destruct (length IDS) as [|K] eqn:EK.
      * rewrite Hctr in Hpos. lia.
      * rewrite <- Hlast1 by lia. f_equal. lia.
    + subst f1. cbn [calc2.sum] in *. exists values'. repeat split.
      * erewrite for_loop_step.
        -- replace (N.of_nat i + 1) with (N.of_nat (S i)) by lia. exact Hrun.
        -- unfold tlist.size, sizeof. rewrite Nat2N.id. exact Hids.
      * exact Hlen'.
      * exact Hlast'.
Qed.
End calc2_facts.

(** [calc2::update] on an object whose [_values] has the size its type
    gives it never throws.  With a coefficient and an id at least, it
    returns the sum of the products of every coefficient with every id,
    added up coefficient after coefficient and for each id after id in
    declaration order, whatever [_values] held before.  With no
    coefficient or no id it reads [_values[ctr-1]] at [ctr = 0], outside
    the array. *)
Theorem calc2_update_sums {double : Type} (of_integer : N -> double)
    (add mul : double -> double -> double)
    (COEFS : list double) (IDS : list N) (values : list double) :
  length values = (length COEFS * length IDS)%nat ->
  (COEFS <> [] -> IDS <> [] ->
   fst (calc2.update of_integer add mul COEFS IDS values)
   = Returns
       (fold_left
          (fun sum coef =>
             fold_left (fun sum id => add sum (mul coef (of_integer id))) IDS sum)
          COEFS (of_integer 0))) /\
  (COEFS = [] \/ IDS = [] ->
   fst (calc2.update of_integer add mul COEFS IDS values) = Undefined).
Proof.
  intros Hlen. unfold calc2.update, calc2.update_body.
  destruct (calc2_coefs_loop of_integer add mul COEFS IDS (N.to_nat (tlist.size COEFS)) 0
              (calc2.Frame (of_integer 0) 0 values)) as (values' & Hrun & Hlen' & Hlast).
  { unfold tlist.size, sizeof. lia. }
  { reflexivity. }
  { exact Hlen. }
  { intros H. discriminate H. }
  cbn [calc2.sum] in Hrun, Hlast.
  rewrite drop_0, take_ge in Hrun, Hlast by (unfold tlist.size, sizeof; lia).
  change (N.of_nat 0) with 0 in Hrun.
  erewrite bind_returns by exact Hrun.
  unfold calc2.load_last. cbn [calc2.ctr calc2._values]. rewrite Hlen'.
  split.
  - intros HC HI.
    assert (Hpos : (0 < length COEFS * length IDS)%nat).
    { destruct COEFS, IDS; try contradiction. simpl. lia. }
    rewrite size_t_sub_pos by lia.
    destruct (N.ltb_spec (N.of_nat (length COEFS * length IDS) - 1)
                (N.of_nat (length COEFS * length IDS))); [|lia].
    replace (N.to_nat (N.of_nat (length COEFS * length IDS) - 1))
      with (length COEFS * length IDS - 1)%nat by lia.
    now rewrite (Hlast Hpos).
  - intros Hempty.
    assert (Hzero : (length COEFS * length IDS)%nat = 0%nat).
    { destruct Hempty as [-> | ->]; simpl; lia. }
    rewrite Hzero. reflexivity.
Qed.

Lemma calc2_update_sums_witness :
  fst (calc2.update Z.of_N Z.add Z.mul [2; 1]%Z [1; 2] [0; 0; 0; 0]%Z) = Returns 9%Z.
Proof.
  apply (calc2_update_sums Z.of_N Z.add Z.mul [2; 1]%Z [1; 2] [0; 0; 0; 0]%Z eq_refl);
    discriminate.
Defined.
